(** * SegmentedControl: state, event handlers and derived highlight geometry

    A shallow embedding of [src/components/segmentedControl/index.tsx].

    The component keeps one piece of React state ([selectedSegment]), three
    refs ([segmentsStyle], [segmentsCounter], [animatedValue]) and reacts to
    two events sent by its [Segment] children: a layout report and a press.
    Handlers are written in a small state monad that also records, in order,
    the effects visible outside the component (the host callback, the start
    of a timing animation, the React state setter).

    A handler runs against the state of the latest render, and a render
    separates two events, so a trace of events is a fold of the handlers.

    JavaScript numbers are idealised: indices are integers ([Z]), pixel
    quantities and the animated scalar are rationals ([Q], compared with
    [==]).  Rounding of IEEE doubles is outside the model. *)

From Stdlib Require Import ZArith QArith Lia Permutation.
From stdpp Require Import base option list.

Local Open Scope Z_scope.

(** ** Data *)

(** Modelled from the spec: the segment descriptor type [SegmentItemProps]
    is declared in [./segment]; the component only reads the length of the
    [segments] array, so a descriptor carries just its label. *)
Record SegmentItemProps := { label : option nat }.

(** A host function passed as a prop.  Its body is host code; calling it is
    recorded as an effect. *)
Inductive Callback := HostFunction (id : nat).

(** The props the component logic reads.  Every prop is optional; the colour,
    radius and container-style props only flow into the rendered styles. *)
Record SegmentedControlProps := {
  props_segments : option (list SegmentItemProps);
  props_onChangeIndex : option Callback;
  props_initialIndex : option Z;
  props_outlineWidth : option Q
}.

Definition BORDER_WIDTH : Q := 1.

(** [event.nativeEvent.layout] *)
Record LayoutRectangle := { x : Q; y : Q; width : Q; height : Q }.
Record NativeEvent := { layout : LayoutRectangle }.
Record LayoutChangeEvent := { nativeEvent : NativeEvent }.

(** An entry [{x, width}] of [segmentsStyle.current]. *)
Record SegmentStyle := { segment_x : Q; segment_width : Q }.

(** [Easing.bezier(x1, y1, x2, y2)] *)
Inductive EasingFunction := bezier (x1 y1 x2 y2 : Q).

(** The configuration object given to [Reanimated.timing]. *)
Record TimingConfig := {
  toValue : Q;
  duration : Z;
  easing : EasingFunction
}.

(** [Reanimated.Value]: the scalar it currently holds and the animation
    attached to it by the last [timing(...).start()], if any.  How the scalar
    moves in time belongs to the animation driver. *)
Record AnimatedValue := {
  value : Q;
  animation : option TimingConfig
}.

(** Where the scalar is heading. *)
Definition target (v : AnimatedValue) : Q :=
  match animation v with
  | Some config => toValue config
  | None => value v
  end.

(** [useState(-1)] and the three [useRef]s.  A JavaScript array may have
    holes: [None] is a hole, [Some s] a stored entry. *)
Record State := {
  selectedSegment : Z;
  segmentsStyle : list (option SegmentStyle);
  segmentsCounter : nat;
  animatedValue : AnimatedValue
}.

(** Effects visible outside the component, in program order. *)
Inductive Effect :=
| CallOnChangeIndex (f : Callback) (index : Z)
| StartTiming (config : TimingConfig)
| SetSelectedSegment (index : Z).

Record World := { component : State; effects : list Effect }.

(** ** The handler monad *)

Definition M (A : Type) : Type := World -> A * World.

#[global] Instance M_ret : MRet M := fun A a w => (a, w).
#[global] Instance M_bind : MBind M :=
  fun A B f m w => let '(a, w') := m w in f a w'.

Definition gets {A} (f : State -> A) : M A := fun w => (f (component w), w).

Definition modify (f : State -> State) : M unit :=
  fun w => (tt, {| component := f (component w); effects := effects w |}).

Definition emit (e : Effect) : M unit :=
  fun w => (tt, {| component := component w; effects := effects w ++ [e] |}).

Definition exec {A} (m : M A) (w : World) : World := snd (m w).

(** ** JavaScript and lodash helpers *)

(** [arr[index] = v] on an array.  Inside the array the slot is overwritten;
    past its end the array grows and the skipped slots are holes; a negative
    [index] names a property that is not an element, so the elements stay. *)
Definition array_set {A} (arr : list (option A)) (index : Z) (v : A)
  : list (option A) :=
  if decide (index < 0) then arr
  else
    let i := Z.to_nat index in
    if decide (i < length arr)%nat then <[i := Some v]> arr
    else arr ++ replicate (i - length arr) None ++ [Some v].

(** [_.times(n)]: the array [0, 1, ..., n-1]. *)
Definition index_value (i : nat) : Q := inject_Z (Z.of_nat i).

Definition times (n : nat) : list Q := index_value <$> seq 0 n.

(** How a JavaScript expression completes. *)
Inductive Completion (A : Type) :=
| Normal (a : A)
| ThrowTypeError.
Arguments Normal {A} a.
Arguments ThrowTypeError {A}.

(** [_.map(arr, segment => f(segment))] where [f] reads properties of
    [segment]: lodash visits every slot up to [arr.length] and passes
    [undefined] for a hole, on which the property read throws. *)
Fixpoint lodash_map {A B} (f : A -> B) (arr : list (option A))
  : Completion (list B) :=
  match arr with
  | [] => Normal []
  | None :: _ => ThrowTypeError
  | Some a :: rest =>
      match lodash_map f rest with
      | Normal bs => Normal (f a :: bs)
      | ThrowTypeError => ThrowTypeError
      end
  end.

(** ** The animation driver's interpolation *)

Record InterpolationConfig := {
  inputRange : list Q;
  outputRange : list Q
}.

(** The node built by [interpolate(animatedValue.current, config)]. *)
Inductive AnimatedNode := interpolate (config : InterpolationConfig).

Definition node_config (n : AnimatedNode) : InterpolationConfig :=
  match n with interpolate config => config end.

(** The straight line through [(i0, o0)] and [(i1, o1)], read at [v]. *)
Definition lerp (v i0 o0 i1 o1 : Q) : Q :=
  (o0 + (v - i0) * (o1 - o0) / (i1 - i0))%Q.

(** Modelled from the spec: [interpolate] is the animation driver's
    (react-native-reanimated), not part of this repository's sources.  The
    spec describes it as piecewise-linear interpolation over an ordered set
    of control points, exact at the control points.  [piecewise v p0 ps]
    reads at [v] the polyline through [p0 :: ps]; the piece is the first
    whose right end lies beyond [v], the last piece otherwise; one control
    point alone gives its own output. *)
Fixpoint piecewise (v : Q) (p0 : Q * Q) (ps : list (Q * Q)) : Q :=
  match ps with
  | [] => snd p0
  | p1 :: ps' =>
      match ps' with
      | [] => lerp v (fst p0) (snd p0) (fst p1) (snd p1)
      | _ :: _ =>
          if Qle_bool (fst p1) v then piecewise v p1 ps'
          else lerp v (fst p0) (snd p0) (fst p1) (snd p1)
      end
  end.

(** Modelled from the spec: the value of an interpolation node when the
    animated scalar is [v].  Arrays of different lengths make the
    interpolation ill-defined, as does an empty table. *)
Definition node_value (v : Q) (n : AnimatedNode) : option Q :=
  let config := node_config n in
  if decide (length (inputRange config) = length (outputRange config)) then
    match zip (inputRange config) (outputRange config) with
    | [] => None
    | p0 :: ps => Some (piecewise v p0 ps)
    end
  else None.

(** ** The component *)

(** The object returned by [getAnimatedStyle]. *)
Record AnimatedStyle := {
  style_width : AnimatedNode;
  style_left : AnimatedNode
}.

Section SegmentedControl.

Variable props : SegmentedControlProps.

(** The destructured props, with their defaults. *)
Definition onChangeIndex : option Callback := props_onChangeIndex props.
Definition initialIndex : Z := default 0 (props_initialIndex props).
Definition segments : option (list SegmentItemProps) := props_segments props.
Definition outlineWidth : Q := default BORDER_WIDTH (props_outlineWidth props).

(** [segments?.length] *)
Definition segments_length : option nat := length <$> segments.

(** The state at mount: [useState(-1)], [useRef([])], [useRef(0)],
    [useRef(new Reanimated.Value(initialIndex))]. *)
Definition mount : State := {|
  selectedSegment := -1;
  segmentsStyle := [];
  segmentsCounter := 0;
  animatedValue := {| value := inject_Z initialIndex; animation := None |}
|}.

Definition setSelectedSegment (index : Z) : M unit :=
  emit (SetSelectedSegment index) ;;
  modify (fun st => {|
    selectedSegment := index;
    segmentsStyle := segmentsStyle st;
    segmentsCounter := segmentsCounter st;
    animatedValue := animatedValue st
  |}).

(** [Reanimated.timing(animatedValue.current, config).start()] *)
Definition timing_start (config : TimingConfig) : M unit :=
  emit (StartTiming config) ;;
  modify (fun st => {|
    selectedSegment := selectedSegment st;
    segmentsStyle := segmentsStyle st;
    segmentsCounter := segmentsCounter st;
    animatedValue := {| value := value (animatedValue st);
                        animation := Some config |}
  |}).

(** [onChangeIndex?.(index)] *)
Definition call_onChangeIndex (index : Z) : M unit :=
  match onChangeIndex with
  | Some f => emit (CallOnChangeIndex f index)
  | None => mret tt
  end.

Definition updateSelectedSegment (index : Z) : M unit :=
  timing_start {| toValue := inject_Z index;
                  duration := 300;
                  easing := bezier (33 # 100) 1 (68 # 100) 1 |} ;;
  setSelectedSegment index.

Definition onSegmentPress (index : Z) : M unit :=
  selected ← gets selectedSegment;
  if decide (selected ≠ index) then
    call_onChangeIndex index ;;
    updateSelectedSegment index
  else mret tt.

Definition onLayout (index : Z) (event : LayoutChangeEvent) : M unit :=
  let rect := layout (nativeEvent event) in
  modify (fun st => {|
    selectedSegment := selectedSegment st;
    segmentsStyle :=
      array_set (segmentsStyle st) index
        {| segment_x := x rect; segment_width := width rect |};
    segmentsCounter := S (segmentsCounter st);
    animatedValue := animatedValue st
  |}) ;;
  counter ← gets segmentsCounter;
  if decide (Some counter = segments_length) then
    setSelectedSegment initialIndex
  else mret tt.

(** [undefined] is [Normal None]. *)
Definition getAnimatedStyle (st : State) : Completion (option AnimatedStyle) :=
  if decide (Some (segmentsCounter st) = segments_length) then
    match
      lodash_map (fun segment => (segment_x segment - outlineWidth)%Q)
        (segmentsStyle st)
    with
    | ThrowTypeError => ThrowTypeError
    | Normal lefts =>
        let left := interpolate {| inputRange := times (segmentsCounter st);
                                   outputRange := lefts |} in
        match lodash_map segment_width (segmentsStyle st) with
        | ThrowTypeError => ThrowTypeError
        | Normal widths =>
            let width := interpolate {| inputRange := times (segmentsCounter st);
                                        outputRange := widths |} in
            Normal (Some {| style_width := width; style_left := left |})
        end
    end
  else Normal None.

(** *** Events *)

(** What a [Segment] child sends to the component. *)
Inductive Event :=
| Layout (index : Z) (event : LayoutChangeEvent)
| Press (index : Z).

Definition handle (ev : Event) : M unit :=
  match ev with
  | Layout index event => onLayout index event
  | Press index => onSegmentPress index
  end.

Fixpoint run (evs : list Event) : M unit :=
  match evs with
  | [] => mret tt
  | ev :: rest => handle ev ;; run rest
  end.

End SegmentedControl.


(** ** Traces *)

(** A world freshly mounted: nothing reported, nothing emitted. *)
Definition start (props : SegmentedControlProps) : World :=
  {| component := mount props; effects := [] |}.

(** The layout reports of a trace, and a trace made of layout reports only. *)
Definition reports (evs : list Event) : list (Z * LayoutChangeEvent) :=
  omap (fun ev => match ev with
                  | Layout index event => Some (index, event)
                  | Press _ => None
                  end) evs.

Definition layout_events (rs : list (Z * LayoutChangeEvent)) : list Event :=
  (fun r => Layout (fst r) (snd r)) <$> rs.

(** The indices pressed in a trace. *)
Definition presses (evs : list Event) : list Z :=
  omap (fun ev => match ev with
                  | Press index => Some index
                  | Layout _ _ => None
                  end) evs.

(** The arguments the host callback was invoked with. *)
Definition onChangeIndex_calls (log : list Effect) : list Z :=
  omap (fun e => match e with
                 | CallOnChangeIndex _ index => Some index
                 | _ => None
                 end) log.

(** The animations started. *)
Definition started_animations (log : list Effect) : list TimingConfig :=
  omap (fun e => match e with
                 | StartTiming config => Some config
                 | _ => None
                 end) log.

(** The entry a layout report stores. *)
Definition style_of (event : LayoutChangeEvent) : SegmentStyle :=
  {| segment_x := x (layout (nativeEvent event));
     segment_width := width (layout (nativeEvent event)) |}.

(** The stored entry at slot [j], if the slot exists and is not a hole. *)
Definition slot {A} (arr : list (option A)) (j : nat) : option A :=
  mjoin (arr !! j).

(** The animation every press starts. *)
Definition press_timing (index : Z) : TimingConfig :=
  {| toValue := inject_Z index;
     duration := 300;
     easing := bezier (33 # 100) 1 (68 # 100) 1 |}.

(** [0 <= index < count] *)
Definition valid_index (props : SegmentedControlProps) (index : Z) : Prop :=
  match segments_length props with
  | Some n => 0 <= index < Z.of_nat n
  | None => False
  end.

(** What a layout report does to the geometry table. *)
Definition record_report (arr : list (option SegmentStyle))
    (r : Z * LayoutChangeEvent) : list (option SegmentStyle) :=
  array_set arr (fst r) (style_of (snd r)).

(** Whether the counter, starting at [c], equals the segment count after one
    of the next [n] layout reports. *)
Definition gate_crossed (props : SegmentedControlProps) (c n : nat) : bool :=
  match segments_length props with
  | Some count => bool_decide (c < count <= c + n)%nat
  | None => false
  end.

(** The highlight rectangle [(left, width)] a style denotes when the animated
    scalar is [v]. *)
Definition highlight_at (v : Q) (s : AnimatedStyle) : option (Q * Q) :=
  match node_value v (style_left s), node_value v (style_width s) with
  | Some l, Some w => Some (l, w)
  | _, _ => None
  end.

(** [highlight_at] yields the rectangle [(l, w)], up to equality of rationals. *)
Definition highlight_is (v : Q) (s : AnimatedStyle) (l w : Q) : Prop :=
  exists hl hw, highlight_at v s = Some (hl, hw) /\ (hl == l)%Q /\ (hw == w)%Q.

#[global] Instance valid_index_dec props index : Decision (valid_index props index).
Proof. unfold valid_index. destruct (segments_length props); apply _. Defined.

(** Whether some layout report has made the counter equal to the segment
    count: the counter starts at zero and every report adds one to it. *)
Definition gate_passed (props : SegmentedControlProps) (st : State) : bool :=
  match segments_length props with
  | Some count => bool_decide (1 <= count <= segmentsCounter st)%nat
  | None => false
  end.

(** The selection is [-1] or a valid index, and a valid index once the gate
    has passed. *)
Definition selection_ok (props : SegmentedControlProps) (st : State) : Prop :=
  (selectedSegment st = -1 \/ valid_index props (selectedSegment st))
  /\ (gate_passed props st = true -> valid_index props (selectedSegment st)).

(** ** Example configurations *)

Definition layout_event (left_edge w : Q) : LayoutChangeEvent :=
  {| nativeEvent := {| layout := {| x := left_edge; y := 0;
                                    width := w; height := 30 |} |} |}.

Definition three_segments : SegmentedControlProps :=
  {| props_segments := Some [ {| label := Some 0%nat |};
                              {| label := Some 1%nat |};
                              {| label := Some 2%nat |} ];
     props_onChangeIndex := Some (HostFunction 0);
     props_initialIndex := Some 1;
     props_outlineWidth := Some 1%Q |}.

Definition three_reports : list (Z * LayoutChangeEvent) :=
  [ (0, layout_event 0 50); (1, layout_event 52 60); (2, layout_event 114 40) ].

Definition two_segments : SegmentedControlProps :=
  {| props_segments := Some [ {| label := None |}; {| label := None |} ];
     props_onChangeIndex := Some (HostFunction 0);
     props_initialIndex := None;
     props_outlineWidth := None |}.

(** Segment 0 of two reports its layout twice (a second layout pass) before
    segment 1 has reported at all. *)
Definition segment0_twice : list Event :=
  [ Layout 0 (layout_event 0 50); Layout 0 (layout_event 0 50) ].

(** Segment 1 of two is pressed before any layout report. *)
Definition early_press : list Event := [ Press 1 ].

(** An empty [segments] array. *)
Definition no_segments : SegmentedControlProps :=
  {| props_segments := Some [];
     props_onChangeIndex := None;
     props_initialIndex := None;
     props_outlineWidth := None |}.

(** Two segments and an [initialIndex] that names neither. *)
Definition initialIndex_out_of_range : SegmentedControlProps :=
  {| props_segments := Some [ {| label := None |}; {| label := None |} ];
     props_onChangeIndex := None;
     props_initialIndex := Some 5;
     props_outlineWidth := None |}.

(** ** Rendering *)

(** The props a rendered [Segment] element receives from the component's
    [_.map(segments, (_value, index) => <Segment .../>)]: its [key], its
    [index], the [isSelected] flag and the spread descriptor
    [segments?.[index]].  The two handlers and the two colours are the same
    for every element and are left out.  The descriptor is spread last; its
    fields (label, icon, ...) are taken to name none of the props set before
    it, as its type in [./segment] is meant for. *)
Record SegmentElement := {
  element_key : nat;
  element_index : nat;
  element_isSelected : bool;
  element_item : SegmentItemProps
}.

(** [_.map(segments, ...)]: lodash maps [undefined] to the empty array. *)
Definition render_segments (props : SegmentedControlProps) (st : State)
  : list SegmentElement :=
  imap (fun index item => {|
          element_key := index;
          element_index := index;
          element_isSelected := bool_decide (selectedSegment st = Z.of_nat index);
          element_item := item |})
       (default [] (segments props)).


(** The selection and the animated target name the same segment, or nothing
    is selected yet. *)
Definition highlight_follows_selection (st : State) : Prop :=
  selectedSegment st = -1
  \/ target (animatedValue st) = inject_Z (selectedSegment st).

(** No layout report to come can seed the selection any more: the counter
    has reached the segment count, or [segments] is undefined. *)
Definition seeding_over (props : SegmentedControlProps) (st : State) : Prop :=
  match segments_length props with
  | Some count => (count <= segmentsCounter st)%nat
  | None => True
  end.


(** The presses of a trace that find another segment selected, in order:
    each press is judged against the selection in the state it arrives in. *)
Fixpoint changing_presses (props : SegmentedControlProps) (evs : list Event)
    (w : World) : list Z :=
  match evs with
  | [] => []
  | ev :: rest =>
      match ev with
      | Press index =>
          if decide (selectedSegment (component w) <> index) then [index] else []
      | Layout _ _ => []
      end
      ++ changing_presses props rest (exec (handle props ev) w)
  end.

(** A list of pressed indices without the presses that repeat the index
    before them, [current] standing before the first. *)
Fixpoint changes (current : Z) (pressed : list Z) : list Z :=
  match pressed with
  | [] => []
  | index :: rest =>
      if decide (current <> index) then index :: changes index rest
      else changes index rest
  end.

(** ** The handlers as functions on worlds *)

Lemma exec_bind {A B} (m : M A) (f : A -> M B) (w : World) :
  exec (m ≫= f) w = exec (f (fst (m w))) (snd (m w)).
Proof. unfold exec, mbind, M_bind. destruct (m w); reflexivity. Qed.

Lemma run_cons props ev evs w :
  exec (run props (ev :: evs)) w = exec (run props evs) (exec (handle props ev) w).
Proof. simpl. rewrite exec_bind. reflexivity. Qed.

Lemma run_app props evs1 evs2 w :
  exec (run props (evs1 ++ evs2)) w
  = exec (run props evs2) (exec (run props evs1) w).
Proof.
  revert w. induction evs1 as [|ev evs1 IH]; intros w; [reflexivity|].
  rewrite <- app_comm_cons, !run_cons. apply IH.
Qed.

Lemma onSegmentPress_same props w :
  exec (onSegmentPress props (selectedSegment (component w))) w = w.
Proof.
  unfold onSegmentPress. rewrite exec_bind. simpl.
  destruct (decide _) as [Hne|_]; [exfalso; apply Hne|]; reflexivity.
Qed.

Lemma onSegmentPress_other props index w :
  selectedSegment (component w) ≠ index ->
  exec (onSegmentPress props index) w =
  {| component := {|
       selectedSegment := index;
       segmentsStyle := segmentsStyle (component w);
       segmentsCounter := segmentsCounter (component w);
       animatedValue := {| value := value (animatedValue (component w));
                           animation := Some (press_timing index) |} |};
     effects := effects w
                ++ match onChangeIndex props with
                   | Some f => [CallOnChangeIndex f index]
                   | None => []
                   end
                ++ [StartTiming (press_timing index); SetSelectedSegment index] |}.
Proof.
  intros Hne. unfold onSegmentPress. rewrite exec_bind. simpl.
  destruct (decide _) as [_|Heq]; [|exfalso; apply Heq, Hne].
  unfold call_onChangeIndex, updateSelectedSegment, timing_start,
    setSelectedSegment, press_timing.
  destruct (onChangeIndex props);
    unfold exec, mbind, M_bind, mret, M_ret, emit, modify; cbn;
    f_equal; rewrite <- ?app_assoc; reflexivity.
Qed.

Lemma onLayout_exec props index event w :
  exec (onLayout props index event) w =
  let st := component w in
  let hit := bool_decide (Some (S (segmentsCounter st)) = segments_length props) in
  {| component := {|
       selectedSegment := if hit then initialIndex props else selectedSegment st;
       segmentsStyle := array_set (segmentsStyle st) index (style_of event);
       segmentsCounter := S (segmentsCounter st);
       animatedValue := animatedValue st |};
     effects := effects w
                ++ if hit then [SetSelectedSegment (initialIndex props)] else [] |}.
Proof.
  unfold onLayout, setSelectedSegment.
  unfold exec, mbind, M_bind, mret, M_ret, emit, modify, gets; cbn.
  destruct (decide _) as [Heq|Hne]; cbn.
  - rewrite (bool_decide_eq_true_2 _ Heq). reflexivity.
  - rewrite (bool_decide_eq_false_2 _ Hne). cbn. rewrite app_nil_r. reflexivity.
Qed.

Lemma handle_Layout props index event w :
  exec (handle props (Layout index event)) w = exec (onLayout props index event) w.
Proof. reflexivity. Qed.

Lemma handle_Press props index w :
  exec (handle props (Press index)) w = exec (onSegmentPress props index) w.
Proof. reflexivity. Qed.

(** A press never touches the two layout refs. *)
Lemma onSegmentPress_refs props index w :
  segmentsStyle (component (exec (onSegmentPress props index) w))
  = segmentsStyle (component w)
  /\ segmentsCounter (component (exec (onSegmentPress props index) w))
     = segmentsCounter (component w).
Proof.
  destruct (decide (selectedSegment (component w) = index)) as [<-|Hne].
  - rewrite onSegmentPress_same. split; reflexivity.
  - rewrite onSegmentPress_other by exact Hne. split; reflexivity.
Qed.

(** The layout refs after a trace are a function of its layout reports. *)
Lemma run_refs props evs w :
  segmentsStyle (component (exec (run props evs) w))
  = foldl record_report (segmentsStyle (component w)) (reports evs)
  /\ segmentsCounter (component (exec (run props evs) w))
     = (segmentsCounter (component w) + length (reports evs))%nat.
Proof.
  revert w. induction evs as [|ev evs IH]; intros w.
  - cbn. split; [reflexivity | lia].
  - rewrite run_cons. destruct (IH (exec (handle props ev) w)) as [IHs IHc].
    rewrite IHs, IHc. destruct ev as [index event|index].
    + rewrite handle_Layout, onLayout_exec.
      change (reports (Layout index event :: evs)) with ((index, event) :: reports evs).
      cbn [foldl length component segmentsStyle segmentsCounter].
      split; [reflexivity | lia].
    + rewrite handle_Press.
      destruct (onSegmentPress_refs props index w) as [-> ->].
      change (reports (Press index :: evs)) with (reports evs).
      split; reflexivity.
Qed.

Lemma gate_crossed_step props c n :
  gate_crossed props c (S n)
  = bool_decide (Some (S c) = segments_length props) || gate_crossed props (S c) n.
Proof.
  unfold gate_crossed. destruct (segments_length props) as [count|].
  - apply eq_true_iff_eq. rewrite orb_true_iff, !bool_decide_eq_true.
    split.
    + intros [H1 H2]. destruct (decide (S c = count)) as [->|Hne]; [left; reflexivity|].
      right. lia.
    + intros [H|H]; [injection H as <-|]; lia.
  - rewrite bool_decide_eq_false_2 by discriminate. reflexivity.
Qed.

Lemma gate_crossed_exclusive props c n :
  bool_decide (Some (S c) = segments_length props) = true ->
  gate_crossed props (S c) n = false.
Proof.
  rewrite bool_decide_eq_true. unfold gate_crossed. intros <-.
  apply bool_decide_eq_false. lia.
Qed.

(** A trace of layout reports: the counter counts them, and the selection is
    seeded, with one call of the state setter, by the report that makes the
    counter equal to the segment count. *)
Lemma run_layouts props rs w :
  let w' := exec (run props (layout_events rs)) w in
  let crossed := gate_crossed props (segmentsCounter (component w)) (length rs) in
  segmentsCounter (component w') = (segmentsCounter (component w) + length rs)%nat
  /\ selectedSegment (component w')
     = (if crossed then initialIndex props else selectedSegment (component w))
  /\ animatedValue (component w') = animatedValue (component w)
  /\ effects w'
     = effects w ++ (if crossed then [SetSelectedSegment (initialIndex props)] else []).
Proof.
  revert w. induction rs as [|[index event] rs IH]; intros w; cbn zeta.
  - cbn [layout_events fmap list_fmap run length]. unfold exec, mret, M_ret; cbn [snd].
    assert (Hno : gate_crossed props (segmentsCounter (component w)) 0 = false).
    { unfold gate_crossed. destruct (segments_length props); [|reflexivity].
      apply bool_decide_eq_false. lia. }
    rewrite Hno, app_nil_r. repeat split; lia.
  - change (layout_events ((index, event) :: rs))
      with (Layout index event :: layout_events rs).
    rewrite run_cons, handle_Layout.
    specialize (IH (exec (onLayout props index event) w)). cbn zeta in IH.
    destruct IH as (IHc & IHs & IHa & IHe).
    rewrite IHc, IHs, IHa, IHe, onLayout_exec. cbn.
    rewrite gate_crossed_step.
    destruct (bool_decide (Some (S (segmentsCounter (component w))) = _)) eqn:Hhit.
    + rewrite (gate_crossed_exclusive _ _ _ Hhit). cbn.
      rewrite app_nil_r. repeat split; lia.
    + cbn. rewrite app_nil_r. repeat split; lia.
Qed.

(** ** Arrays with holes *)

Lemma length_array_set {A} (arr : list (option A)) index v :
  0 <= index ->
  length (array_set arr index v) = (length arr `max` S (Z.to_nat index))%nat.
Proof.
  intros Hpos. unfold array_set.
  destruct (decide (index < 0)) as [Hneg|_]; [lia|]. cbn zeta.
  destruct (decide (Z.to_nat index < length arr)%nat) as [Hin|Hout].
  - rewrite length_insert. lia.
  - rewrite !length_app, length_replicate. cbn. lia.
Qed.

Lemma slot_array_set_eq {A} (arr : list (option A)) index v :
  0 <= index -> slot (array_set arr index v) (Z.to_nat index) = Some v.
Proof.
  intros Hpos. unfold array_set, slot.
  destruct (decide (index < 0)) as [Hneg|_]; [lia|]. cbn zeta.
  destruct (decide (Z.to_nat index < length arr)%nat) as [Hin|Hout].
  - rewrite list_lookup_insert_eq by exact Hin. reflexivity.
  - rewrite lookup_app_r by lia.
    rewrite lookup_app_r by (rewrite length_replicate; lia).
    rewrite length_replicate, Nat.sub_diag. reflexivity.
Qed.

Lemma slot_array_set_ne {A} (arr : list (option A)) index v j :
  index < 0 \/ j <> Z.to_nat index ->
  slot (array_set arr index v) j = slot arr j.
Proof.
  intros Hj. unfold array_set, slot.
  destruct (decide (index < 0)) as [Hneg|Hpos]; [reflexivity|]. cbn zeta.
  destruct Hj as [Hneg|Hne]; [lia|].
  destruct (decide (Z.to_nat index < length arr)%nat) as [Hin|Hout].
  - rewrite list_lookup_insert_ne by congruence. reflexivity.
  - destruct (decide (j < length arr)%nat) as [Hjin|Hjout].
    + rewrite lookup_app_l by exact Hjin. reflexivity.
    + rewrite (lookup_ge_None_2 arr j) by lia.
      rewrite lookup_app_r by lia.
      destruct (decide (j - length arr < Z.to_nat index - length arr)%nat)
        as [Hhole|Hpast].
      * rewrite lookup_app_l by (rewrite length_replicate; exact Hhole).
        rewrite lookup_replicate_2 by exact Hhole. reflexivity.
      * rewrite lookup_app_r by (rewrite length_replicate; lia).
        rewrite length_replicate.
        rewrite lookup_ge_None_2 by (cbn; lia). reflexivity.
Qed.

Lemma foldl_record_length rs arr n :
  (length arr <= n)%nat ->
  (forall r, r ∈ rs -> fst r < Z.of_nat n) ->
  (length (foldl record_report arr rs) <= n)%nat.
Proof.
  revert arr. induction rs as [|r rs IH]; intros arr Hlen Hbound; [exact Hlen|].
  cbn [foldl]. apply IH.
  - unfold record_report.
    destruct (decide (fst r < 0)) as [Hneg|Hpos].
    + unfold array_set. rewrite decide_True by exact Hneg. exact Hlen.
    + rewrite length_array_set by lia.
      pose proof (Hbound r (list_elem_of_here _ _)). lia.
  - intros r' Hr'. apply Hbound. apply list_elem_of_further, Hr'.
Qed.

Lemma foldl_record_other rs arr j :
  (forall r, r ∈ rs -> fst r < 0 \/ j <> Z.to_nat (fst r)) ->
  slot (foldl record_report arr rs) j = slot arr j.
Proof.
  revert arr. induction rs as [|r rs IH]; intros arr Hother; [reflexivity|].
  cbn [foldl]. rewrite IH.
  - apply slot_array_set_ne, Hother, list_elem_of_here.
  - intros r' Hr'. apply Hother, list_elem_of_further, Hr'.
Qed.

(** With one report per index, the table holds at each reported index the
    entry that report carried. *)
Lemma foldl_record_found rs arr index event :
  NoDup (fst <$> rs) ->
  (forall r, r ∈ rs -> 0 <= fst r) ->
  (index, event) ∈ rs ->
  slot (foldl record_report arr rs) (Z.to_nat index) = Some (style_of event).
Proof.
  revert arr. induction rs as [|r rs IH]; intros arr Hnodup Hpos Hin.
  - apply elem_of_nil in Hin. contradiction.
  - cbn [fmap list_fmap] in Hnodup. apply NoDup_cons in Hnodup as [Hfresh Hnodup].
    cbn [foldl]. apply elem_of_cons in Hin as [<-|Hin].
    + rewrite foldl_record_other.
      * apply slot_array_set_eq.
        apply (Hpos (index, event)), list_elem_of_here.
      * intros r' Hr'. right. intros Heq.
        apply Hfresh. apply list_elem_of_fmap. exists r'. split; [|exact Hr'].
        pose proof (Hpos r' (list_elem_of_further _ _ _ Hr')).
        pose proof (Hpos (index, event) (list_elem_of_here _ _)).
        cbn [fst] in *. lia.
    + apply IH; [exact Hnodup | | exact Hin].
      intros r' Hr'. apply Hpos, list_elem_of_further, Hr'.
Qed.

Lemma slot_fmap_Some {A} (gs : list A) j : slot (Some <$> gs) j = gs !! j.
Proof. unfold slot. rewrite list_lookup_fmap. destruct (gs !! j); reflexivity. Qed.

(** A table without holes is a plain list of entries. *)
Lemma full_table {A} (arr : list (option A)) :
  (forall j, (j < length arr)%nat -> is_Some (slot arr j)) ->
  exists gs, arr = Some <$> gs.
Proof.
  induction arr as [|a arr IH]; intros Hfull.
  - exists []. reflexivity.
  - destruct (Hfull 0%nat) as [g Hg]; [cbn; lia|].
    destruct IH as [gs ->].
    + intros j Hj. apply (Hfull (S j)). cbn. lia.
    + exists (g :: gs). unfold slot in Hg. cbn in Hg. subst a. reflexivity.
Qed.

Lemma lodash_map_fmap {A B} (f : A -> B) (gs : list A) :
  lodash_map f (Some <$> gs) = Normal (f <$> gs).
Proof.
  induction gs as [|g gs IH]; [reflexivity|].
  cbn. cbn in IH. rewrite IH. reflexivity.
Qed.

Lemma length_lodash_map {A B} (f : A -> B) (arr : list (option A)) bs :
  lodash_map f arr = Normal bs -> length bs = length arr.
Proof.
  revert bs. induction arr as [|[a|] arr IH]; intros bs Hbs.
  - injection Hbs as <-. reflexivity.
  - cbn in Hbs. destruct (lodash_map f arr) as [bs'|]; [|discriminate].
    injection Hbs as <-. cbn. rewrite (IH bs' eq_refl). reflexivity.
  - discriminate.
Qed.

Lemma lodash_map_hole {A B} (f : A -> B) (arr : list (option A)) j :
  arr !! j = Some None -> lodash_map f arr = ThrowTypeError.
Proof.
  revert j. induction arr as [|a arr IH]; intros j Hj; [discriminate|].
  destruct j as [|j]; cbn in Hj.
  - injection Hj as ->. reflexivity.
  - destruct a as [a|]; [|reflexivity]. cbn. rewrite (IH j Hj). reflexivity.
Qed.

(** When every index [0 .. count-1] has reported exactly once, whatever the
    order and whatever presses came in between, the counter equals the count
    and the table is the list of the reported entries, in index order. *)
Lemma measured_table props count evs w :
  segmentsStyle (component w) = [] ->
  segmentsCounter (component w) = 0%nat ->
  Permutation (fst <$> reports evs) (Z.of_nat <$> seq 0 count) ->
  exists gs,
    segmentsStyle (component (exec (run props evs) w)) = Some <$> gs
    /\ segmentsCounter (component (exec (run props evs) w)) = count
    /\ length gs = count
    /\ forall index event, (index, event) ∈ reports evs ->
         0 <= index < Z.of_nat count
         /\ gs !! Z.to_nat index = Some (style_of event).
Proof.
  intros Hempty Hzero Hperm.
  destruct (run_refs props evs w) as [Hstyle Hcounter].
  rewrite Hempty in Hstyle. rewrite Hzero in Hcounter.
  set (rs := reports evs) in *.
  assert (Hrange : forall r, r ∈ rs -> 0 <= fst r < Z.of_nat count).
  { intros r Hr.
    assert (Hfst : fst r ∈ Z.of_nat <$> seq 0 count).
    { rewrite <- Hperm. apply list_elem_of_fmap. exists r. split; [reflexivity | exact Hr]. }
    apply list_elem_of_fmap in Hfst as (n & -> & Hn).
    apply elem_of_seq in Hn. lia. }
  assert (Hnodup : NoDup (fst <$> rs)).
  { rewrite Hperm. apply NoDup_fmap_2; [apply Nat2Z.inj' | apply NoDup_seq]. }
  assert (Hfound : forall index event, (index, event) ∈ rs ->
            slot (foldl record_report [] rs) (Z.to_nat index) = Some (style_of event)).
  { intros index event Hin. apply foldl_record_found; [exact Hnodup | | exact Hin].
    intros r Hr. apply Hrange, Hr. }
  assert (Hall : forall j, (j < count)%nat -> is_Some (slot (foldl record_report [] rs) j)).
  { intros j Hj.
    assert (Hin : Z.of_nat j ∈ fst <$> rs).
    { rewrite Hperm. apply list_elem_of_fmap. exists j. split; [reflexivity|].
      apply elem_of_seq. lia. }
    apply list_elem_of_fmap in Hin as ([index event] & Heq & Hin). cbn in Heq. subst index.
    rewrite <- (Nat2Z.id j). rewrite (Hfound _ _ Hin). eexists; reflexivity. }
  assert (Hle : (length (foldl record_report [] rs) <= count)%nat).
  { apply foldl_record_length; [cbn; lia|]. intros r Hr. apply Hrange, Hr. }
  assert (Hge : (count <= length (foldl record_report [] rs))%nat).
  { destruct count as [|n]; [lia|].
    destruct (Hall n) as [g Hg]; [lia|].
    unfold slot in Hg.
    destruct (foldl record_report [] rs !! n) as [o|] eqn:Hlook; [|discriminate].
    apply lookup_lt_Some in Hlook. lia. }
  destruct (full_table (foldl record_report [] rs)) as [gs Hgs].
  { intros j Hj. apply Hall. lia. }
  exists gs. rewrite Hstyle, Hcounter.
  assert (Hlen : length gs = count).
  { rewrite Hgs, length_fmap in Hle, Hge. lia. }
  repeat split; try assumption; try (apply (Hrange (index, event)); assumption).
  - rewrite <- (length_fmap fst rs), Hperm, length_fmap, length_seq. reflexivity.
  - rewrite <- slot_fmap_Some, <- Hgs. apply Hfound. assumption.
Qed.

(** ** Piecewise-linear interpolation over [0, 1, ..., n-1] *)

Lemma index_value_S a : (index_value (S a) == index_value a + 1)%Q.
Proof.
  unfold index_value. rewrite Nat2Z.inj_succ. unfold Z.succ.
  rewrite inject_Z_plus. reflexivity.
Qed.

Lemma index_value_le a b : (a <= b)%nat -> (index_value a <= index_value b)%Q.
Proof. intros H. unfold index_value. rewrite <- Zle_Qle. lia. Qed.

Lemma index_value_lt a b : (a < b)%nat -> (index_value a < index_value b)%Q.
Proof. intros H. unfold index_value. rewrite <- Zlt_Qlt. lia. Qed.

(** Between two consecutive indices the slope is the difference of the outputs. *)
Lemma lerp_unit v i0 o0 i1 o1 :
  (i1 == i0 + 1)%Q -> (lerp v i0 o0 i1 o1 == o0 + (v - i0) * (o1 - o0))%Q.
Proof.
  intros H. unfold lerp. rewrite H. field.
  assert (Hone : (i0 + 1 - i0 == 1)%Q) by ring.
  rewrite Hone. apply Q_apart_0_1.
Qed.

Lemma piecewise_breakpoint outs : forall v a o0 k ok,
  (o0 :: outs) !! k = Some ok ->
  (v == index_value (a + k))%Q ->
  (piecewise v (index_value a, o0)
     (zip (index_value <$> seq (S a) (length outs)) outs) == ok)%Q.
Proof.
  induction outs as [|o1 outs IH]; intros v a o0 k ok Hk Hv.
  - destruct k; [|discriminate]. injection Hk as <-. reflexivity.
  - cbn [length seq fmap list_fmap zip zip_with piecewise].
    destruct k as [|k].
    + injection Hk as <-. rewrite Nat.add_0_r in Hv.
      assert (Hl : (lerp v (index_value a) o0 (index_value (S a)) o1 == o0)%Q).
      { rewrite lerp_unit by apply index_value_S. rewrite Hv. ring. }
      destruct outs as [|o2 outs]; [exact Hl|].
      cbn [length seq fmap list_fmap zip zip_with fst snd].
      destruct (Qle_bool (index_value (S a)) v) eqn:Hle; [|exact Hl].
      exfalso. apply Qle_bool_iff in Hle. rewrite Hv in Hle.
      apply (Qlt_not_le _ _ (index_value_lt a (S a) (Nat.lt_succ_diag_r a))), Hle.
    + cbn [lookup list_lookup] in Hk.
      destruct outs as [|o2 outs].
      * destruct k; [|discriminate]. injection Hk as <-.
        cbn [zip zip_with length seq fmap list_fmap fst snd].
        rewrite lerp_unit by apply index_value_S. rewrite Hv.
        replace (a + 1)%nat with (S a) by lia. rewrite index_value_S. ring.
      * assert (Hle : Qle_bool (index_value (S a)) v = true).
        { apply Qle_bool_iff. rewrite Hv. apply index_value_le. lia. }
        specialize (IH v (S a) o1 k ok Hk).
        cbn [length seq fmap list_fmap zip zip_with fst snd] in IH |- *.
        rewrite Hle. apply IH. rewrite Hv.
        replace (a + S k)%nat with (S a + k)%nat by lia. reflexivity.
Qed.

Lemma piecewise_halfway outs : forall v a o0 k ok ok',
  (o0 :: outs) !! k = Some ok ->
  (o0 :: outs) !! S k = Some ok' ->
  (v == index_value (a + k) + (1 # 2))%Q ->
  (piecewise v (index_value a, o0)
     (zip (index_value <$> seq (S a) (length outs)) outs) == (ok + ok') / 2)%Q.
Proof.
  induction outs as [|o1 outs IH]; intros v a o0 k ok ok' Hk Hk' Hv.
  - discriminate.
  - cbn [length seq fmap list_fmap zip zip_with piecewise].
    destruct k as [|k].
    + injection Hk as <-. injection Hk' as <-. rewrite Nat.add_0_r in Hv.
      assert (Hl : (lerp v (index_value a) o0 (index_value (S a)) o1
                    == (o0 + o1) / 2)%Q).
      { rewrite lerp_unit by apply index_value_S. rewrite Hv. field. }
      destruct outs as [|o2 outs]; [exact Hl|].
      cbn [length seq fmap list_fmap zip zip_with fst snd].
      destruct (Qle_bool (index_value (S a)) v) eqn:Hle; [|exact Hl].
      exfalso. apply Qle_bool_iff in Hle. rewrite Hv, index_value_S in Hle.
      apply Qplus_le_r in Hle. revert Hle. apply Qlt_not_le. reflexivity.
    + cbn [lookup list_lookup] in Hk, Hk'.
      destruct outs as [|o2 outs]; [destruct k; discriminate|].
      assert (Hle : Qle_bool (index_value (S a)) v = true).
      { apply Qle_bool_iff. rewrite Hv.
        apply Qle_trans with (index_value (a + S k)); [apply index_value_le; lia|].
        rewrite <- (Qplus_0_r (index_value (a + S k))) at 1.
        apply Qplus_le_r. discriminate. }
      specialize (IH v (S a) o1 k ok ok' Hk Hk').
      cbn [length seq fmap list_fmap zip zip_with fst snd] in IH |- *.
      rewrite Hle. apply IH. rewrite Hv.
      replace (a + S k)%nat with (S a + k)%nat by lia. reflexivity.
Qed.

Lemma length_times n : length (times n) = n.
Proof. unfold times. rewrite length_fmap, length_seq. reflexivity. Qed.

Lemma node_value_breakpoint outs k ok :
  outs !! k = Some ok ->
  exists q, node_value (index_value k)
              (interpolate {| inputRange := times (length outs);
                              outputRange := outs |}) = Some q
            /\ (q == ok)%Q.
Proof.
  intros Hk. unfold node_value. cbn [node_config inputRange outputRange].
  rewrite decide_True by apply length_times.
  destruct outs as [|o0 outs]; [discriminate|].
  cbn [length times seq fmap list_fmap zip zip_with]. unfold times.
  eexists. split; [reflexivity|].
  apply (piecewise_breakpoint outs (index_value k) 0 o0 k ok Hk). reflexivity.
Qed.

Lemma node_value_halfway outs k ok ok' :
  outs !! k = Some ok ->
  outs !! S k = Some ok' ->
  exists q, node_value (index_value k + (1 # 2))
              (interpolate {| inputRange := times (length outs);
                              outputRange := outs |}) = Some q
            /\ (q == (ok + ok') / 2)%Q.
Proof.
  intros Hk Hk'. unfold node_value. cbn [node_config inputRange outputRange].
  rewrite decide_True by apply length_times.
  destruct outs as [|o0 outs]; [discriminate|].
  cbn [length times seq fmap list_fmap zip zip_with]. unfold times.
  eexists. split; [reflexivity|].
  apply (piecewise_halfway outs _ 0 o0 k ok ok' Hk Hk'). reflexivity.
Qed.

(** The style computed from a table without holes, when the gate holds. *)
Lemma getAnimatedStyle_measured props st gs :
  Some (segmentsCounter st) = segments_length props ->
  segmentsStyle st = Some <$> gs ->
  getAnimatedStyle props st =
  Normal (Some {|
    style_width := interpolate {|
      inputRange := times (segmentsCounter st);
      outputRange := segment_width <$> gs |};
    style_left := interpolate {|
      inputRange := times (segmentsCounter st);
      outputRange := (fun segment => (segment_x segment - outlineWidth props)%Q) <$> gs |}
  |}).
Proof.
  intros Hgate Hfull. unfold getAnimatedStyle.
  rewrite decide_True by exact Hgate. rewrite Hfull, !lodash_map_fmap. reflexivity.
Qed.

Lemma getAnimatedStyle_gate_closed props st :
  Some (segmentsCounter st) <> segments_length props ->
  getAnimatedStyle props st = Normal None.
Proof.
  intros Hgate. unfold getAnimatedStyle.
  rewrite decide_False by exact Hgate. reflexivity.
Qed.

Lemma getAnimatedStyle_undefined_iff props st :
  getAnimatedStyle props st = Normal None
  <-> Some (segmentsCounter st) <> segments_length props.
Proof.
  split; [|apply getAnimatedStyle_gate_closed].
  unfold getAnimatedStyle. destruct (decide _) as [Hgate|Hgate]; [|intros _; exact Hgate].
  destruct (lodash_map _ (segmentsStyle st)); [|discriminate].
  destruct (lodash_map segment_width (segmentsStyle st)); discriminate.
Qed.

(** * The claims *)

(** C1. A press on an index [index] other than the current [selectedSegment]
    invokes [onChangeIndex(index)] exactly once, when the callback is given,
    and before anything else; it then starts a timing animation of the
    animated value toward [index] with duration 300 and easing
    [bezier(0.33, 1, 0.68, 1)], and sets [selectedSegment] to [index].  The
    layout refs and the scalar currently held are untouched.  This holds for
    every such index, the valid ones included. *)
Theorem press_other_segment props w index :
  index <> selectedSegment (component w) ->
  let w' := exec (onSegmentPress props index) w in
  let config := {| toValue := inject_Z index;
                   duration := 300;
                   easing := bezier (33 # 100) 1 (68 # 100) 1 |} in
  effects w'
  = effects w
    ++ match onChangeIndex props with
       | Some f => [CallOnChangeIndex f index]
       | None => []
       end
    ++ [StartTiming config; SetSelectedSegment index]
  /\ selectedSegment (component w') = index
  /\ animation (animatedValue (component w')) = Some config
  /\ target (animatedValue (component w')) = inject_Z index
  /\ value (animatedValue (component w')) = value (animatedValue (component w))
  /\ segmentsStyle (component w') = segmentsStyle (component w)
  /\ segmentsCounter (component w') = segmentsCounter (component w).
Proof.
  intros Hne. cbn zeta.
  rewrite onSegmentPress_other by congruence.
  repeat split.
Qed.

Lemma press_other_segment_witness :
  2 <> selectedSegment (component (start three_segments))
  /\ selectedSegment
       (component (exec (onSegmentPress three_segments 2) (start three_segments)))
     = 2
  /\ onChangeIndex_calls
       (effects (exec (onSegmentPress three_segments 2) (start three_segments)))
     = [2].
Proof.
  assert (Hne : 2 <> selectedSegment (component (start three_segments)))
    by (cbn; lia).
  destruct (press_other_segment three_segments (start three_segments) 2 Hne)
    as (Heff & Hsel & _).
  split; [exact Hne|]. split; [exact Hsel|]. rewrite Heff. reflexivity.
Defined.

(** C4. A press on the index that is currently selected changes nothing:
    the whole world (selection, geometry table, counter, animated value and
    its target, effect log) is the same afterwards, so the callback is not
    invoked and no animation is started. *)
Theorem press_selected_segment_noop props w :
  let w' := exec (onSegmentPress props (selectedSegment (component w))) w in
  w' = w
  /\ selectedSegment (component w') = selectedSegment (component w)
  /\ segmentsStyle (component w') = segmentsStyle (component w)
  /\ segmentsCounter (component w') = segmentsCounter (component w)
  /\ target (animatedValue (component w')) = target (animatedValue (component w))
  /\ onChangeIndex_calls (effects w') = onChangeIndex_calls (effects w)
  /\ started_animations (effects w') = started_animations (effects w).
Proof. cbn zeta. rewrite onSegmentPress_same. repeat split. Qed.

Lemma segments_length_Some props l :
  segments props = Some l -> segments_length props = Some (length l).
Proof. unfold segments_length. intros ->. reflexivity. Qed.

(** The style derived once every segment has reported exactly once. *)
Lemma measured_style props l evs :
  segments props = Some l ->
  Permutation (fst <$> reports evs) (Z.of_nat <$> seq 0 (length l)) ->
  exists gs,
    length gs = length l
    /\ segmentsStyle (component (exec (run props evs) (start props))) = Some <$> gs
    /\ getAnimatedStyle props (component (exec (run props evs) (start props)))
       = Normal (Some {|
           style_width := interpolate {|
             inputRange := times (length (segment_width <$> gs));
             outputRange := segment_width <$> gs |};
           style_left := interpolate {|
             inputRange :=
               times (length ((fun segment =>
                                 (segment_x segment - outlineWidth props)%Q) <$> gs));
             outputRange :=
               (fun segment => (segment_x segment - outlineWidth props)%Q) <$> gs |}
         |})
    /\ forall index event, (index, event) ∈ reports evs ->
         0 <= index < Z.of_nat (length l)
         /\ gs !! Z.to_nat index = Some (style_of event).
Proof.
  intros Hsegs Hperm.
  destruct (measured_table props (length l) evs (start props))
    as (gs & Hstyle & Hcounter & Hlen & Hfound); [reflexivity | reflexivity | exact Hperm |].
  exists gs. split; [exact Hlen|]. split; [exact Hstyle|]. split; [|exact Hfound].
  rewrite (getAnimatedStyle_measured props _ gs); [| |exact Hstyle].
  - rewrite Hcounter, !length_fmap, Hlen. reflexivity.
  - rewrite Hcounter. symmetry. apply segments_length_Some, Hsegs.
Qed.

(** C2. For every count of at least one segment, once each segment
    [0 .. count-1] has reported its layout exactly once, in any order,
    [selectedSegment] is the configured [initialIndex]; the only effect of the
    whole initialisation is one call of the state setter, so [onChangeIndex]
    has not been invoked. *)
Theorem initial_selection_after_layout props l rs :
  segments props = Some l ->
  (1 <= length l)%nat ->
  Permutation (fst <$> rs) (Z.of_nat <$> seq 0 (length l)) ->
  let w' := exec (run props (layout_events rs)) (start props) in
  selectedSegment (component w') = initialIndex props
  /\ effects w' = [SetSelectedSegment (initialIndex props)]
  /\ onChangeIndex_calls (effects w') = [].
Proof.
  intros Hsegs Hpos Hperm. cbn zeta.
  assert (Hlen : length rs = length l).
  { rewrite <- (length_fmap fst rs), Hperm, length_fmap, length_seq. reflexivity. }
  destruct (run_layouts props rs (start props)) as (_ & Hsel & _ & Heff).
  assert (Hcrossed : gate_crossed props (segmentsCounter (component (start props)))
                       (length rs) = true).
  { unfold gate_crossed. rewrite (segments_length_Some props l Hsegs).
    apply bool_decide_eq_true. cbn. lia. }
  rewrite Hcrossed in Hsel, Heff.
  rewrite Hsel, Heff. repeat split.
Qed.

Lemma initial_selection_after_layout_witness :
  selectedSegment
    (component (exec (run three_segments (layout_events three_reports))
                  (start three_segments))) = 1
  /\ onChangeIndex_calls
       (effects (exec (run three_segments (layout_events three_reports))
                   (start three_segments))) = [].
Proof.
  destruct (initial_selection_after_layout three_segments
              [ {| label := Some 0%nat |}; {| label := Some 1%nat |};
                {| label := Some 2%nat |} ] three_reports)
    as (Hsel & _ & Hcalls).
  - reflexivity.
  - cbn. lia.
  - cbn. reflexivity.
  - split; [exact Hsel | exact Hcalls].
Defined.

(** C3. Once every segment has reported exactly once (in any order, with any
    presses in between), the style is computed, and when the animated value
    is exactly the index [k] of a segment the highlight is
    [{left: segments[k].x - outlineWidth, width: segments[k].width}], where
    [segments[k]] is what segment [k] reported.  In particular, with three
    segments reporting [{x:0,w:50}], [{x:52,w:60}], [{x:114,w:40}],
    [outlineWidth = 1] and [initialIndex = 1], the selection is 1 and the
    highlight at the animated value is [{left: 51, width: 60}]. *)
Theorem highlight_at_breakpoint :
  (forall props l evs,
     segments props = Some l ->
     (1 <= length l)%nat ->
     Permutation (fst <$> reports evs) (Z.of_nat <$> seq 0 (length l)) ->
     exists s,
       getAnimatedStyle props (component (exec (run props evs) (start props)))
       = Normal (Some s)
       /\ forall k event, (k, event) ∈ reports evs ->
            highlight_is (inject_Z k) s
              (x (layout (nativeEvent event)) - outlineWidth props)
              (width (layout (nativeEvent event))))
  /\ (let st := component (exec (run three_segments (layout_events three_reports))
                             (start three_segments)) in
      selectedSegment st = 1
      /\ exists s, getAnimatedStyle three_segments st = Normal (Some s)
                   /\ highlight_is (value (animatedValue st)) s 51 60).
Proof.
  split.
  - intros props l evs Hsegs _ Hperm.
    destruct (measured_style props l evs Hsegs Hperm) as (gs & _ & _ & Hstyle & Hfound).
    eexists. split; [exact Hstyle|].
    intros k event Hin. destruct (Hfound k event Hin) as [Hk Hlook].
    assert (Hv : inject_Z k = index_value (Z.to_nat k)).
    { unfold index_value. rewrite Z2Nat.id by lia. reflexivity. }
    rewrite Hv. unfold highlight_is, highlight_at. cbn [style_left style_width].
    destruct (node_value_breakpoint
                ((fun segment => (segment_x segment - outlineWidth props)%Q) <$> gs)
                (Z.to_nat k) (x (layout (nativeEvent event)) - outlineWidth props)%Q)
      as (hl & -> & Hl).
    { rewrite list_lookup_fmap, Hlook. reflexivity. }
    destruct (node_value_breakpoint (segment_width <$> gs)
                (Z.to_nat k) (width (layout (nativeEvent event))))
      as (hw & -> & Hw).
    { rewrite list_lookup_fmap, Hlook. reflexivity. }
    exists hl, hw. repeat split; assumption.
  - cbn zeta. split; [reflexivity|].
    eexists. split; [vm_compute; reflexivity|].
    eexists _, _. split; [vm_compute; reflexivity|].
    split; vm_compute; reflexivity.
Qed.

Lemma highlight_at_breakpoint_witness :
  exists s,
    getAnimatedStyle three_segments
      (component (exec (run three_segments (layout_events three_reports))
                    (start three_segments)))
    = Normal (Some s)
    /\ highlight_is (inject_Z 2) s (114 - 1) 40.
Proof.
  destruct (proj1 highlight_at_breakpoint three_segments
              [ {| label := Some 0%nat |}; {| label := Some 1%nat |};
                {| label := Some 2%nat |} ]
              (layout_events three_reports))
    as (s & Hs & Hk).
  - reflexivity.
  - cbn. lia.
  - cbn. reflexivity.
  - exists s. split; [exact Hs|].
    apply (Hk 2 (layout_event 114 40)).
    cbn. apply list_elem_of_further, list_elem_of_further, list_elem_of_here.
Defined.

(** C5, as the code has it.  In every state whose counter differs from the
    length of [segments], [getAnimatedStyle] returns [undefined], so no
    highlight style is applied.  With [segments] undefined the comparison
    with [segments?.length] fails in every state.  With [segments] empty it
    fails in every state whose counter is not zero; at counter zero, the
    mount state, the counter equals the length and the result is not
    [undefined]: the interpolations are requested. *)
Theorem no_highlight_until_measured props :
  (forall st, segments_length props <> Some (segmentsCounter st) ->
              getAnimatedStyle props st = Normal None)
  /\ (forall st l, segments props = Some l -> segmentsCounter st <> length l ->
                   getAnimatedStyle props st = Normal None)
  /\ (segments props = None ->
      forall st, getAnimatedStyle props st = Normal None)
  /\ (segments props = Some [] ->
      forall st, segmentsCounter st <> 0%nat ->
                 getAnimatedStyle props st = Normal None)
  /\ (segments props = Some [] ->
      forall st, segmentsCounter st = 0%nat ->
                 getAnimatedStyle props st <> Normal None).
Proof.
  assert (Hclosed : forall st, segments_length props <> Some (segmentsCounter st) ->
                               getAnimatedStyle props st = Normal None).
  { intros st Hne. apply getAnimatedStyle_gate_closed. congruence. }
  split; [exact Hclosed|].
  split; [|split; [|split]].
  - intros st l Hsegs Hne. apply Hclosed.
    rewrite (segments_length_Some props l Hsegs). congruence.
  - intros Hsegs st. apply Hclosed. unfold segments_length. rewrite Hsegs. discriminate.
  - intros Hsegs st Hne. apply Hclosed.
    rewrite (segments_length_Some props [] Hsegs). cbn. congruence.
  - intros Hsegs st Hzero Hnone.
    apply getAnimatedStyle_undefined_iff in Hnone. apply Hnone.
    rewrite (segments_length_Some props [] Hsegs), Hzero. reflexivity.
Qed.

(** C5 as stated fails for an empty [segments] array: the control renders no
    segment, so it stays in its mount state, where the counter, 0, equals the
    length and [getAnimatedStyle] does not return [undefined]. *)
Lemma no_highlight_until_measured_counterexample :
  segments no_segments = Some []
  /\ render_segments no_segments (mount no_segments) = []
  /\ getAnimatedStyle no_segments (mount no_segments) <> Normal None.
Proof. repeat split. discriminate. Qed.

(** The boundary of C5: with an empty [segments] array the counter equals
    the length at mount, and the style is built from empty ranges. *)
Example empty_segments_at_mount :
  getAnimatedStyle no_segments (mount no_segments)
  = Normal (Some {|
      style_width := interpolate {| inputRange := []; outputRange := [] |};
      style_left := interpolate {| inputRange := []; outputRange := [] |} |}).
Proof. reflexivity. Qed.

Lemma no_highlight_until_measured_witness :
  segments_length two_segments
  <> Some (segmentsCounter
             (component (exec (run two_segments [Layout 1 (layout_event 52 60)])
                           (start two_segments))))
  /\ getAnimatedStyle two_segments
       (component (exec (run two_segments [Layout 1 (layout_event 52 60)])
                     (start two_segments)))
     = Normal None.
Proof.
  assert (Hne : segments_length two_segments
                <> Some (segmentsCounter
                           (component (exec (run two_segments
                                               [Layout 1 (layout_event 52 60)])
                                         (start two_segments)))))
    by (cbn; discriminate).
  split; [exact Hne|].
  apply (proj1 (no_highlight_until_measured two_segments) _ Hne).
Defined.

(** C7, as the code has it.  Whenever the style is computed, the gate holds,
    both interpolations take [0 .. count-1] as [inputRange], and each
    [outputRange] has one entry per slot of the geometry table.  When every
    segment index [0 .. count-1] has reported exactly once, the table has
    exactly [count] entries, so in both interpolations [inputRange] and
    [outputRange] have the same length, [count]. *)
Theorem interpolation_ranges props count :
  segments_length props = Some count ->
  (forall st s,
     getAnimatedStyle props st = Normal (Some s) ->
     segmentsCounter st = count
     /\ inputRange (node_config (style_left s)) = times count
     /\ inputRange (node_config (style_width s)) = times count
     /\ length (outputRange (node_config (style_left s))) = length (segmentsStyle st)
     /\ length (outputRange (node_config (style_width s))) = length (segmentsStyle st))
  /\ (forall evs,
        Permutation (fst <$> reports evs) (Z.of_nat <$> seq 0 count) ->
        let st := component (exec (run props evs) (start props)) in
        length (segmentsStyle st) = count
        /\ exists s,
             getAnimatedStyle props st = Normal (Some s)
             /\ length (inputRange (node_config (style_left s))) = count
             /\ length (outputRange (node_config (style_left s))) = count
             /\ length (inputRange (node_config (style_width s))) = count
             /\ length (outputRange (node_config (style_width s))) = count).
Proof.
  intros Hcount. split.
  - intros st s. unfold getAnimatedStyle.
    destruct (decide _) as [Hgate|_]; [|discriminate].
    assert (Hc : segmentsCounter st = count) by congruence.
    destruct (lodash_map _ (segmentsStyle st)) as [lefts|] eqn:Hlefts; [|discriminate].
    destruct (lodash_map segment_width (segmentsStyle st)) as [widths|] eqn:Hwidths;
      [|discriminate].
    intros Hs. injection Hs as <-. cbn. rewrite Hc.
    rewrite (length_lodash_map _ _ _ Hlefts), (length_lodash_map _ _ _ Hwidths).
    repeat split.
  - intros evs Hperm. cbn zeta.
    unfold segments_length in Hcount.
    destruct (segments props) as [l|] eqn:Hsegs; [|discriminate].
    cbn in Hcount. injection Hcount as <-.
    destruct (measured_style props l evs Hsegs Hperm)
      as (gs & Hlen & Htable & Hstyle & _).
    split; [rewrite Htable, length_fmap; exact Hlen|].
    eexists. split; [exact Hstyle|].
    cbn. rewrite !length_times, !length_fmap. repeat split; exact Hlen.
Qed.

Lemma interpolation_ranges_witness :
  length (segmentsStyle
            (component (exec (run three_segments (layout_events three_reports))
                          (start three_segments)))) = 3%nat.
Proof.
  assert (Hcount : segments_length three_segments = Some 3%nat) by reflexivity.
  destruct (interpolation_ranges three_segments 3 Hcount) as [_ Hmeasured].
  apply (Hmeasured (layout_events three_reports)).
  cbn. reflexivity.
Defined.

(** C7 as stated fails: with two segments, when segment 0 reports twice the
    counter equals the count and the style is computed, from an [inputRange]
    of two entries and an [outputRange] of one. *)
Lemma interpolation_ranges_counterexample :
  Some (segmentsCounter
          (component (exec (run two_segments segment0_twice) (start two_segments))))
  = segments_length two_segments
  /\ exists s,
       getAnimatedStyle two_segments
         (component (exec (run two_segments segment0_twice) (start two_segments)))
       = Normal (Some s)
       /\ length (inputRange (node_config (style_left s)))
          <> length (outputRange (node_config (style_left s)))
       /\ length (inputRange (node_config (style_width s)))
          <> length (outputRange (node_config (style_width s)))
       /\ length (segmentsStyle
                    (component (exec (run two_segments segment0_twice)
                                  (start two_segments)))) = 1%nat.
Proof.
  split; [reflexivity|].
  eexists. split; [vm_compute; reflexivity|].
  cbn. repeat split; lia.
Qed.

(** C8. Once every segment has reported exactly once, when the animated value
    is exactly halfway between two adjacent indices [k] and [k+1], the
    highlight's [left] and [width] are the arithmetic means of their values at
    [k] and at [k+1]. *)
Theorem highlight_halfway props l evs :
  segments props = Some l ->
  Permutation (fst <$> reports evs) (Z.of_nat <$> seq 0 (length l)) ->
  exists s,
    getAnimatedStyle props (component (exec (run props evs) (start props)))
    = Normal (Some s)
    /\ forall k event event',
         (k, event) ∈ reports evs ->
         (k + 1, event') ∈ reports evs ->
         highlight_is (inject_Z k + (1 # 2)) s
           (((x (layout (nativeEvent event)) - outlineWidth props)
             + (x (layout (nativeEvent event')) - outlineWidth props)) / 2)
           ((width (layout (nativeEvent event))
             + width (layout (nativeEvent event'))) / 2).
Proof.
  intros Hsegs Hperm.
  destruct (measured_style props l evs Hsegs Hperm) as (gs & _ & _ & Hstyle & Hfound).
  eexists. split; [exact Hstyle|].
  intros k event event' Hin Hin'.
  destruct (Hfound k event Hin) as [Hk Hlook].
  destruct (Hfound (k + 1) event' Hin') as [Hk' Hlook'].
  replace (Z.to_nat (k + 1)) with (S (Z.to_nat k)) in Hlook' by lia.
  assert (Hv : inject_Z k = index_value (Z.to_nat k)).
  { unfold index_value. rewrite Z2Nat.id by lia. reflexivity. }
  rewrite Hv. unfold highlight_is, highlight_at. cbn [style_left style_width].
  destruct (node_value_halfway
              ((fun segment => (segment_x segment - outlineWidth props)%Q) <$> gs)
              (Z.to_nat k)
              (x (layout (nativeEvent event)) - outlineWidth props)%Q
              (x (layout (nativeEvent event')) - outlineWidth props)%Q)
    as (hl & -> & Hl).
  { rewrite list_lookup_fmap, Hlook. reflexivity. }
  { rewrite list_lookup_fmap, Hlook'. reflexivity. }
  destruct (node_value_halfway (segment_width <$> gs) (Z.to_nat k)
              (width (layout (nativeEvent event)))
              (width (layout (nativeEvent event'))))
    as (hw & -> & Hw).
  { rewrite list_lookup_fmap, Hlook. reflexivity. }
  { rewrite list_lookup_fmap, Hlook'. reflexivity. }
  exists hl, hw. repeat split; assumption.
Qed.

Lemma highlight_halfway_witness :
  exists s,
    getAnimatedStyle three_segments
      (component (exec (run three_segments (layout_events three_reports))
                    (start three_segments)))
    = Normal (Some s)
    /\ highlight_is (inject_Z 1 + (1 # 2)) s
         (((52 - 1) + (114 - 1)) / 2) ((60 + 40) / 2).
Proof.
  destruct (highlight_halfway three_segments
              [ {| label := Some 0%nat |}; {| label := Some 1%nat |};
                {| label := Some 2%nat |} ]
              (layout_events three_reports))
    as (s & Hs & Hk).
  - reflexivity.
  - cbn. reflexivity.
  - exists s. split; [exact Hs|].
    apply (Hk 1 (layout_event 52 60) (layout_event 114 40)).
    + cbn. apply list_elem_of_further, list_elem_of_here.
    + cbn. apply list_elem_of_further, list_elem_of_further, list_elem_of_here.
Defined.

(** ** The selection invariant *)

Lemma presses_cons_Press index evs : presses (Press index :: evs) = index :: presses evs.
Proof. reflexivity. Qed.

Lemma presses_cons_Layout index event evs :
  presses (Layout index event :: evs) = presses evs.
Proof. reflexivity. Qed.

Lemma presses_app evs1 evs2 : presses (evs1 ++ evs2) = presses evs1 ++ presses evs2.
Proof. unfold presses. apply omap_app. Qed.

Lemma no_presses_layout_events evs :
  presses evs = [] -> evs = layout_events (reports evs).
Proof.
  induction evs as [|[index event|index] evs IH]; intros Hnone.
  - reflexivity.
  - rewrite presses_cons_Layout in Hnone.
    change (reports (Layout index event :: evs)) with ((index, event) :: reports evs).
    cbn. f_equal. apply IH, Hnone.
  - discriminate.
Qed.

Lemma handle_selection_ok props ev w :
  valid_index props (initialIndex props) ->
  (forall index, ev = Press index -> valid_index props index) ->
  selection_ok props (component w) ->
  selection_ok props (component (exec (handle props ev) w)).
Proof.
  intros Hinit Hpress [Hsel Hgate]. destruct ev as [index event|index].
  - rewrite handle_Layout, onLayout_exec. cbn zeta.
    unfold selection_ok. cbn [component selectedSegment].
    destruct (bool_decide _) eqn:Hhit.
    + split; [right|intros _]; exact Hinit.
    + split; [exact Hsel|]. intros Hpassed. apply Hgate.
      apply bool_decide_eq_false in Hhit.
      unfold gate_passed in *. cbn [segmentsCounter] in Hpassed.
      destruct (segments_length props) as [count|]; [|discriminate].
      apply bool_decide_eq_true in Hpassed. apply bool_decide_eq_true.
      assert (S (segmentsCounter (component w)) <> count) by congruence. lia.
  - rewrite handle_Press.
    destruct (decide (selectedSegment (component w) = index)) as [<-|Hne].
    + rewrite onSegmentPress_same. split; assumption.
    + rewrite onSegmentPress_other by exact Hne.
      unfold selection_ok. cbn [component selectedSegment].
      split; [right|intros _]; apply Hpress; reflexivity.
Qed.

Lemma run_selection_ok props evs : forall w,
  valid_index props (initialIndex props) ->
  Forall (valid_index props) (presses evs) ->
  selection_ok props (component w) ->
  selection_ok props (component (exec (run props evs) w)).
Proof.
  induction evs as [|ev evs IH]; intros w Hinit Hpresses Hok; [exact Hok|].
  rewrite run_cons. apply IH; [exact Hinit | |].
  - destruct ev; [exact Hpresses|].
    rewrite presses_cons_Press in Hpresses. apply Forall_inv_tail in Hpresses.
    exact Hpresses.
  - apply handle_selection_ok; [exact Hinit | | exact Hok].
    intros index ->. rewrite presses_cons_Press in Hpresses.
    apply Forall_inv in Hpresses. exact Hpresses.
Qed.

(** The counter never decreases, so the gate stays passed. *)
Lemma gate_passed_run props evs w :
  gate_passed props (component w) = true ->
  gate_passed props (component (exec (run props evs) w)) = true.
Proof.
  unfold gate_passed. destruct (segments_length props) as [count|]; [|discriminate].
  rewrite !bool_decide_eq_true.
  destruct (run_refs props evs w) as [_ ->]. lia.
Qed.

(** C6, as the code has it.  [selectedSegment] is [-1] as long as no segment
    has been pressed and the gate has not passed.  When [initialIndex] is a
    valid index and every pressed index is valid, [selectedSegment] is [-1]
    or a valid index in every reachable state, and once the gate has passed
    it is a valid index after every further sequence of layout and press
    events. *)
Theorem selection_validity props evs later :
  let st := component (exec (run props evs) (start props)) in
  let st' := component (exec (run props (evs ++ later)) (start props)) in
  (presses evs = [] -> gate_passed props st = false -> selectedSegment st = -1)
  /\ (valid_index props (initialIndex props) ->
      Forall (valid_index props) (presses (evs ++ later)) ->
      (selectedSegment st = -1 \/ valid_index props (selectedSegment st))
      /\ (gate_passed props st = true -> valid_index props (selectedSegment st'))).
Proof.
  cbn zeta. split.
  - intros Hnone Hclosed. rewrite (no_presses_layout_events evs Hnone) in *.
    destruct (run_layouts props (reports evs) (start props)) as (Hc & -> & _).
    destruct (gate_crossed _ _ _) eqn:Hcrossed; [|reflexivity].
    exfalso. unfold gate_passed, gate_crossed in *.
    destruct (segments_length props) as [count|]; [|discriminate].
    apply bool_decide_eq_true in Hcrossed. apply bool_decide_eq_false in Hclosed.
    rewrite Hc in Hclosed. lia.
  - intros Hinit Hpresses.
    assert (Hstart : selection_ok props (component (start props))).
    { split; [left; reflexivity|]. unfold gate_passed.
      destruct (segments_length props); [|discriminate].
      rewrite bool_decide_eq_true. cbn. lia. }
    split.
    + apply (run_selection_ok props evs (start props)); [exact Hinit | | exact Hstart].
      rewrite presses_app in Hpresses. apply Forall_app in Hpresses. apply Hpresses.
    + intros Hpassed.
      apply (run_selection_ok props (evs ++ later) (start props));
        [exact Hinit | exact Hpresses | exact Hstart |].
      rewrite run_app. apply gate_passed_run, Hpassed.
Qed.

Lemma selection_validity_witness :
  valid_index three_segments
    (selectedSegment
       (component (exec (run three_segments
                           (layout_events three_reports
                            ++ [Press 2; Layout 0 (layout_event 0 50); Press 0]))
                     (start three_segments))))
  /\ selectedSegment
       (component (exec (run initialIndex_out_of_range [Layout 0 (layout_event 0 50)])
                     (start initialIndex_out_of_range))) = -1.
Proof.
  split.
  - apply (proj2 (selection_validity three_segments (layout_events three_reports)
                    [Press 2; Layout 0 (layout_event 0 50); Press 0])).
    + cbn. lia.
    + cbn. repeat constructor; cbn; lia.
    + reflexivity.
  - apply (proj1 (selection_validity initialIndex_out_of_range
                    [Layout 0 (layout_event 0 50)] [])).
    + reflexivity.
    + reflexivity.
Defined.

(** The seeded selection is the [initialIndex] prop as given: out of range,
    it stays out of range after the gate. *)
Example seeded_selection_out_of_range :
  selectedSegment
    (component (exec (run initialIndex_out_of_range
                        [Layout 0 (layout_event 0 50); Layout 1 (layout_event 52 60)])
                  (start initialIndex_out_of_range))) = 5.
Proof. reflexivity. Qed.

(** A hole left in the table by a duplicated report makes the style
    computation throw once the counter equals the count. *)
Example duplicated_report_leaves_hole :
  getAnimatedStyle two_segments
    (component (exec (run two_segments
                        [Layout 1 (layout_event 52 60); Layout 1 (layout_event 52 60)])
                  (start two_segments)))
  = ThrowTypeError.
Proof. reflexivity. Qed.

(** C6 as stated fails: with two segments, a press on segment 1 before any
    layout report leaves the gate not passed and [selectedSegment] equal to 1,
    not [-1]. *)
Lemma selection_validity_counterexample :
  gate_passed two_segments
    (component (exec (run two_segments early_press) (start two_segments))) = false
  /\ Some (segmentsCounter
             (component (exec (run two_segments early_press) (start two_segments))))
     <> segments_length two_segments
  /\ selectedSegment
       (component (exec (run two_segments early_press) (start two_segments))) = 1
  /\ selectedSegment
       (component (exec (run two_segments early_press) (start two_segments))) <> -1.
Proof. repeat split; cbn; discriminate. Qed.

Lemma onChangeIndex_calls_app log1 log2 :
  onChangeIndex_calls (log1 ++ log2) = onChangeIndex_calls log1 ++ onChangeIndex_calls log2.
Proof. unfold onChangeIndex_calls. apply omap_app. Qed.

(** C9. A press on a valid index [index] while [selectedSegment] is still
    [-1] and the gate has not passed invokes [onChangeIndex(index)] (when the
    callback is given) and makes [index] both the selection and the animated
    target.  The layout reports that later bring the counter to the segment
    count reset [selectedSegment] to [initialIndex] with one call of the
    state setter and no call of [onChangeIndex]; the animated target stays at
    the pressed index. *)
Theorem press_before_gate_is_overridden props l w index rs :
  segments props = Some l ->
  selectedSegment (component w) = -1 ->
  (segmentsCounter (component w) < length l)%nat ->
  0 <= index < Z.of_nat (length l) ->
  (segmentsCounter (component w) + length rs = length l)%nat ->
  let w1 := exec (onSegmentPress props index) w in
  let w2 := exec (run props (layout_events rs)) w1 in
  effects w1
  = effects w
    ++ match onChangeIndex props with
       | Some f => [CallOnChangeIndex f index]
       | None => []
       end
    ++ [StartTiming (press_timing index); SetSelectedSegment index]
  /\ selectedSegment (component w1) = index
  /\ target (animatedValue (component w1)) = inject_Z index
  /\ selectedSegment (component w2) = initialIndex props
  /\ effects w2 = effects w1 ++ [SetSelectedSegment (initialIndex props)]
  /\ onChangeIndex_calls (effects w2) = onChangeIndex_calls (effects w1)
  /\ target (animatedValue (component w2)) = inject_Z index.
Proof.
  intros Hsegs Hsel Hclosed Hindex Hlast. cbn zeta.
  assert (Hne : selectedSegment (component w) <> index) by lia.
  destruct (run_layouts props rs (exec (onSegmentPress props index) w))
    as (_ & Hsel2 & Hanim2 & Heff2).
  assert (Hcrossed :
            gate_crossed props
              (segmentsCounter (component (exec (onSegmentPress props index) w)))
              (length rs) = true).
  { destruct (onSegmentPress_refs props index w) as [_ ->].
    unfold gate_crossed. rewrite (segments_length_Some props l Hsegs).
    apply bool_decide_eq_true. lia. }
  rewrite Hcrossed in Hsel2, Heff2.
  rewrite Hsel2, Hanim2, Heff2, onChangeIndex_calls_app.
  rewrite onSegmentPress_other by exact Hne. cbn [component effects selectedSegment
    animatedValue target animation press_timing toValue onChangeIndex_calls omap].
  rewrite app_nil_r. repeat split.
Qed.

Lemma press_before_gate_is_overridden_witness :
  selectedSegment
    (component (exec (onSegmentPress three_segments 2) (start three_segments))) = 2
  /\ selectedSegment
       (component (exec (run three_segments (layout_events three_reports))
                     (exec (onSegmentPress three_segments 2) (start three_segments))))
     = 1
  /\ onChangeIndex_calls
       (effects (exec (run three_segments (layout_events three_reports))
                   (exec (onSegmentPress three_segments 2) (start three_segments))))
     = [2].
Proof.
  destruct (press_before_gate_is_overridden three_segments
              [ {| label := Some 0%nat |}; {| label := Some 1%nat |};
                {| label := Some 2%nat |} ]
              (start three_segments) 2 three_reports)
    as (Heff1 & Hsel1 & _ & Hsel2 & _ & Hcalls & _).
  - reflexivity.
  - reflexivity.
  - cbn. lia.
  - cbn. lia.
  - reflexivity.
  - split; [exact Hsel1|]. split; [exact Hsel2|].
    rewrite Hcalls, Heff1. reflexivity.
Defined.

(** ** Layout reports after the gate *)

(** What a press does to the selection, the animated value and the log
    depends on nothing else. *)
Lemma onSegmentPress_congruence props index wa wb :
  selectedSegment (component wa) = selectedSegment (component wb) ->
  animatedValue (component wa) = animatedValue (component wb) ->
  effects wa = effects wb ->
  selectedSegment (component (exec (onSegmentPress props index) wa))
  = selectedSegment (component (exec (onSegmentPress props index) wb))
  /\ animatedValue (component (exec (onSegmentPress props index) wa))
     = animatedValue (component (exec (onSegmentPress props index) wb))
  /\ effects (exec (onSegmentPress props index) wa)
     = effects (exec (onSegmentPress props index) wb).
Proof.
  intros Hsel Hanim Heff.
  destruct (decide (selectedSegment (component wa) = index)) as [Heq|Hne].
  - rewrite <- Heq at 1 3 5. rewrite onSegmentPress_same.
    rewrite Hsel in Heq. rewrite <- Heq. rewrite onSegmentPress_same.
    repeat split; assumption.
  - rewrite (onSegmentPress_other props index wa) by exact Hne.
    rewrite (onSegmentPress_other props index wb) by congruence.
    cbn. rewrite Hanim, Heff. repeat split.
Qed.

(** Past the gate, layout reports are invisible to the selection, the
    animated value and the log: a trace acts on them as its presses alone. *)
Lemma run_past_gate props count evs : forall wa wb,
  segments_length props = Some count ->
  (count <= segmentsCounter (component wa))%nat ->
  selectedSegment (component wa) = selectedSegment (component wb) ->
  animatedValue (component wa) = animatedValue (component wb) ->
  effects wa = effects wb ->
  selectedSegment (component (exec (run props evs) wa))
  = selectedSegment (component (exec (run props (Press <$> presses evs)) wb))
  /\ animatedValue (component (exec (run props evs) wa))
     = animatedValue (component (exec (run props (Press <$> presses evs)) wb))
  /\ effects (exec (run props evs) wa)
     = effects (exec (run props (Press <$> presses evs)) wb).
Proof.
  induction evs as [|[index event|index] evs IH]; intros wa wb Hcount Hpast Hsel Hanim Heff.
  - repeat split; assumption.
  - rewrite run_cons, presses_cons_Layout, handle_Layout.
    assert (Hmiss : bool_decide (Some (S (segmentsCounter (component wa)))
                                 = segments_length props) = false).
    { apply bool_decide_eq_false. rewrite Hcount. intros [= Heq]. lia. }
    apply IH; [exact Hcount | | | |];
      rewrite onLayout_exec; cbn zeta; rewrite Hmiss; cbn.
    + lia.
    + exact Hsel.
    + exact Hanim.
    + rewrite app_nil_r. exact Heff.
  - rewrite presses_cons_Press.
    change (Press <$> index :: presses evs) with (Press index :: (Press <$> presses evs)).
    rewrite !run_cons, !handle_Press.
    destruct (onSegmentPress_congruence props index wa wb Hsel Hanim Heff)
      as (Hsel' & Hanim' & Heff').
    apply IH; try assumption.
    destruct (onSegmentPress_refs props index wa) as [_ ->]. exact Hpast.
Qed.

(** C10. When the counter equals the segment count, one more layout report,
    from any segment, takes the counter strictly past the count without
    touching the selection, the animated value or the log.  From then on
    [getAnimatedStyle] returns [undefined] after every further trace, while
    the selection, the animated value and the effects evolve exactly as if
    only the presses of that trace had been handled in the state before the
    extra report. *)
Theorem extra_layout_report_closes_gate props l w index event :
  segments props = Some l ->
  segmentsCounter (component w) = length l ->
  let w1 := exec (onLayout props index event) w in
  (length l < segmentsCounter (component w1))%nat
  /\ selectedSegment (component w1) = selectedSegment (component w)
  /\ animatedValue (component w1) = animatedValue (component w)
  /\ effects w1 = effects w
  /\ getAnimatedStyle props (component w1) = Normal None
  /\ forall evs,
       let w2 := exec (run props evs) w1 in
       let w2' := exec (run props (Press <$> presses evs)) w in
       (length l < segmentsCounter (component w2))%nat
       /\ getAnimatedStyle props (component w2) = Normal None
       /\ selectedSegment (component w2) = selectedSegment (component w2')
       /\ animatedValue (component w2) = animatedValue (component w2')
       /\ effects w2 = effects w2'.
Proof.
  intros Hsegs Hgate. cbn zeta.
  pose proof (segments_length_Some props l Hsegs) as Hcount.
  assert (Hmiss : bool_decide (Some (S (segmentsCounter (component w)))
                               = segments_length props) = false).
  { apply bool_decide_eq_false. rewrite Hcount. intros [= Heq]. lia. }
  assert (Hw1 : (length l < segmentsCounter (component (exec (onLayout props index event) w)))%nat
                /\ selectedSegment (component (exec (onLayout props index event) w))
                   = selectedSegment (component w)
                /\ animatedValue (component (exec (onLayout props index event) w))
                   = animatedValue (component w)
                /\ effects (exec (onLayout props index event) w) = effects w).
  { rewrite onLayout_exec. cbn zeta. rewrite Hmiss. cbn. rewrite app_nil_r.
    repeat split. lia. }
  destruct Hw1 as (Hc1 & Hsel1 & Hanim1 & Heff1).
  repeat split; try assumption.
  - apply getAnimatedStyle_gate_closed. rewrite Hcount. intros [= Heq]. lia.
  - destruct (run_refs props evs (exec (onLayout props index event) w)) as [_ ->]. lia.
  - apply getAnimatedStyle_gate_closed. rewrite Hcount.
    destruct (run_refs props evs (exec (onLayout props index event) w)) as [_ ->].
    intros [= Heq]. lia.
  - apply (run_past_gate props (length l) evs); try assumption. lia.
  - apply (run_past_gate props (length l) evs); try assumption. lia.
  - apply (run_past_gate props (length l) evs); try assumption. lia.
Qed.

Lemma extra_layout_report_closes_gate_witness :
  getAnimatedStyle three_segments
    (component
       (exec (run three_segments [Press 2])
          (exec (onLayout three_segments 0 (layout_event 0 50))
             (exec (run three_segments (layout_events three_reports))
                (start three_segments)))))
  = Normal None.
Proof.
  destruct (extra_layout_report_closes_gate three_segments
              [ {| label := Some 0%nat |}; {| label := Some 1%nat |};
                {| label := Some 2%nat |} ]
              (exec (run three_segments (layout_events three_reports))
                 (start three_segments))
              0 (layout_event 0 50))
    as (_ & _ & _ & _ & _ & Hlater).
  - reflexivity.
  - reflexivity.
  - apply (Hlater [Press 2]).
Defined.

(** * Further properties of the handlers *)

Lemma reports_app evs1 evs2 : reports (evs1 ++ evs2) = reports evs1 ++ reports evs2.
Proof. unfold reports. apply omap_app. Qed.

Lemma reports_layout_events rs : reports (layout_events rs) = rs.
Proof.
  induction rs as [|[index event] rs IH]; [reflexivity|].
  change (layout_events ((index, event) :: rs))
    with (Layout index event :: layout_events rs).
  change (reports (Layout index event :: layout_events rs))
    with ((index, event) :: reports (layout_events rs)).
  rewrite IH. reflexivity.
Qed.

(** The geometry table keeps, at each index, the layout reported last for
    that index: a later report for the same segment overwrites the earlier
    one, and reports for other segments and presses leave the slot alone. *)
Theorem last_report_wins props evs1 index event evs2 w :
  0 <= index ->
  index ∉ (fst <$> reports evs2) ->
  slot (segmentsStyle
          (component (exec (run props (evs1 ++ Layout index event :: evs2)) w)))
       (Z.to_nat index)
  = Some (style_of event).
Proof.
  intros Hpos Hlast.
  destruct (run_refs props (evs1 ++ Layout index event :: evs2) w) as [-> _].
  rewrite reports_app.
  change (reports (Layout index event :: evs2)) with ((index, event) :: reports evs2).
  rewrite foldl_app. cbn [foldl].
  rewrite foldl_record_other.
  - apply slot_array_set_eq, Hpos.
  - intros r Hr. destruct (decide (fst r < 0)) as [Hneg|Hnn]; [left; exact Hneg|].
    right. intros Heq. apply Hlast. apply list_elem_of_fmap. exists r.
    split; [lia | exact Hr].
Qed.

Lemma last_report_wins_witness :
  slot (segmentsStyle
          (component (exec (run two_segments
                              ([Layout 0 (layout_event 0 50)]
                               ++ Layout 0 (layout_event 4 44)
                                  :: [Press 1; Layout 1 (layout_event 52 60)]))
                        (start two_segments))))
       (Z.to_nat 0)
  = Some {| segment_x := 4; segment_width := 44 |}.
Proof.
  apply (last_report_wins two_segments [Layout 0 (layout_event 0 50)] 0
           (layout_event 4 44) [Press 1; Layout 1 (layout_event 52 60)]).
  - lia.
  - cbn. intros Hin. apply list_elem_of_singleton in Hin. discriminate.
Defined.

Lemma length_array_set_ge {A} (arr : list (option A)) index v :
  (length arr <= length (array_set arr index v))%nat.
Proof.
  destruct (decide (index < 0)) as [Hneg|Hpos].
  - unfold array_set. rewrite decide_True by exact Hneg. lia.
  - rewrite length_array_set by lia. lia.
Qed.

Lemma foldl_record_length_ge rs : forall arr,
  (length arr <= length (foldl record_report arr rs))%nat.
Proof.
  induction rs as [|r rs IH]; intros arr; [cbn; lia|].
  cbn [foldl]. etransitivity; [|apply IH]. apply length_array_set_ge.
Qed.

(** The counter counts layout callbacks, whichever segment they come from and
    however often: after a trace it has grown by the number of layout
    reports.  The table never shrinks, and as long as every reported index
    is below [n] it never grows beyond [n] slots. *)
Theorem counter_counts_reports props evs w n :
  (length (segmentsStyle (component w)) <= n)%nat ->
  (forall r, r ∈ reports evs -> fst r < Z.of_nat n) ->
  let st' := component (exec (run props evs) w) in
  segmentsCounter st' = (segmentsCounter (component w) + length (reports evs))%nat
  /\ (length (segmentsStyle (component w)) <= length (segmentsStyle st') <= n)%nat.
Proof.
  intros Hlen Hbound. cbn zeta.
  destruct (run_refs props evs w) as [-> ->].
  split; [reflexivity|]. split.
  - apply foldl_record_length_ge.
  - apply foldl_record_length; assumption.
Qed.

Lemma counter_counts_reports_witness :
  segmentsCounter
    (component (exec (run two_segments (segment0_twice ++ [Press 1]))
                  (start two_segments))) = 2%nat
  /\ (length (segmentsStyle
                (component (exec (run two_segments (segment0_twice ++ [Press 1]))
                              (start two_segments)))) <= 2)%nat.
Proof.
  destruct (counter_counts_reports two_segments (segment0_twice ++ [Press 1])
              (start two_segments) 2) as [Hc [_ Hl]].
  - cbn. lia.
  - intros r Hr. cbn in Hr.
    apply elem_of_cons in Hr as [->|Hr]; [cbn; lia|].
    apply list_elem_of_singleton in Hr as ->. cbn. lia.
  - split; [exact Hc | exact Hl].
Defined.

Lemma lodash_map_throws {A B} (f : A -> B) (arr : list (option A)) :
  lodash_map f arr = ThrowTypeError <-> exists j, arr !! j = Some None.
Proof.
  split.
  - induction arr as [|[a|] arr IH]; intros Hthrow.
    + discriminate.
    + cbn in Hthrow. destruct (lodash_map f arr) as [bs|]; [discriminate|].
      destruct (IH eq_refl) as [j Hj]. exists (S j). exact Hj.
    + exists 0%nat. reflexivity.
  - intros [j Hj]. apply (lodash_map_hole f arr j Hj).
Qed.

Lemma getAnimatedStyle_throws_iff props st :
  getAnimatedStyle props st = ThrowTypeError
  <-> Some (segmentsCounter st) = segments_length props
      /\ exists j, segmentsStyle st !! j = Some None.
Proof.
  unfold getAnimatedStyle.
  destruct (decide (Some (segmentsCounter st) = segments_length props)) as [Hgate|Hgate].
  - destruct (lodash_map (fun segment => (segment_x segment - outlineWidth props)%Q)
                (segmentsStyle st)) as [lefts|] eqn:Hlefts.
    + assert (Hfull : forall j, segmentsStyle st !! j <> Some None).
      { intros j Hj. rewrite (lodash_map_hole _ _ j Hj) in Hlefts. discriminate. }
      destruct (lodash_map segment_width (segmentsStyle st)) as [widths|] eqn:Hwidths.
      * split; [discriminate | intros [_ [j Hj]]; destruct (Hfull j Hj)].
      * apply lodash_map_throws in Hwidths as [j Hj]. destruct (Hfull j Hj).
    + pose proof (proj1 (lodash_map_throws _ _) Hlefts) as Hhole.
      split; [intros _; split; assumption | reflexivity].
  - split; [discriminate | intros [Heq _]; contradiction].
Qed.

Lemma lookup_hole_iff {A} (arr : list (option A)) j :
  arr !! j = Some None <-> (j < length arr)%nat /\ slot arr j = None.
Proof.
  unfold slot. split.
  - intros Hj. split; [apply lookup_lt_Some in Hj; exact Hj | rewrite Hj; reflexivity].
  - intros [Hlt Hnone]. apply lookup_lt_is_Some in Hlt as [o Ho].
    rewrite Ho in Hnone |- *. destruct o; [discriminate | reflexivity].
Qed.

Lemma length_array_set_lt {A} (arr : list (option A)) index v j :
  (j < length (array_set arr index v))%nat
  <-> (j < length arr)%nat \/ Z.of_nat j <= index.
Proof.
  destruct (decide (index < 0)) as [Hneg|Hpos].
  - unfold array_set. rewrite decide_True by exact Hneg. lia.
  - rewrite length_array_set by lia. lia.
Qed.

Lemma foldl_record_length_lt rs : forall arr j,
  (j < length (foldl record_report arr rs))%nat
  <-> (j < length arr)%nat \/ exists r, r ∈ rs /\ Z.of_nat j <= fst r.
Proof.
  induction rs as [|r rs IH]; intros arr j; cbn [foldl].
  - split; [left; assumption|]. intros [H|(r & Hr & _)]; [exact H|].
    apply elem_of_nil in Hr. contradiction.
  - rewrite IH. unfold record_report at 1. rewrite length_array_set_lt. split.
    + intros [[Hlt|Hle]|(r' & Hr' & Hle)].
      * left; exact Hlt.
      * right. exists r. split; [apply list_elem_of_here | exact Hle].
      * right. exists r'. split; [apply list_elem_of_further, Hr' | exact Hle].
    + intros [Hlt|(r' & Hr' & Hle)]; [left; left; exact Hlt|].
      apply elem_of_cons in Hr' as [->|Hr'].
      * left; right; exact Hle.
      * right. exists r'. split; assumption.
Qed.

Lemma foldl_record_reported rs : forall arr j,
  Z.of_nat j ∈ (fst <$> rs) ->
  is_Some (slot (foldl record_report arr rs) j).
Proof.
  induction rs as [|r rs IH]; intros arr j Hin.
  - apply elem_of_nil in Hin. contradiction.
  - cbn [foldl]. destruct (decide (Z.of_nat j ∈ (fst <$> rs))) as [Hlater|Hlast].
    + apply IH, Hlater.
    + cbn [fmap list_fmap] in Hin. apply elem_of_cons in Hin as [Heq|Hin];
        [|contradiction].
      rewrite foldl_record_other.
      * unfold record_report. rewrite <- Heq.
        pose proof (slot_array_set_eq arr (Z.of_nat j) (style_of (snd r))
                      (Nat2Z.is_nonneg j)) as Hset.
        rewrite Nat2Z.id in Hset. rewrite Hset. eexists; reflexivity.
      * intros r' Hr'. destruct (decide (fst r' < 0)) as [Hneg|Hnn]; [left; exact Hneg|].
        right. intros Hj. apply Hlast. apply list_elem_of_fmap. exists r'.
        split; [lia | exact Hr'].
Qed.

Lemma foldl_record_unreported rs arr j :
  Z.of_nat j ∉ (fst <$> rs) ->
  slot (foldl record_report arr rs) j = slot arr j.
Proof.
  intros Hnot. apply foldl_record_other. intros r Hr.
  destruct (decide (fst r < 0)) as [Hneg|Hnn]; [left; exact Hneg|].
  right. intros Hj. apply Hnot. apply list_elem_of_fmap. exists r.
  split; [lia | exact Hr].
Qed.

(** From mount, [getAnimatedStyle] throws the [TypeError] of the [_.map]
    iteratee exactly after the traces that hold as many layout reports as
    there are segments and in which some index never reported although a
    higher one did: the skipped slot of the table is a hole. *)
Theorem style_throws_on_skipped_index props evs :
  getAnimatedStyle props (component (exec (run props evs) (start props)))
  = ThrowTypeError
  <-> segments_length props = Some (length (reports evs))
      /\ exists j, (Z.of_nat j ∉ (fst <$> reports evs))
                   /\ exists r, r ∈ reports evs /\ Z.of_nat j < fst r.
Proof.
  rewrite getAnimatedStyle_throws_iff.
  destruct (run_refs props evs (start props)) as [-> ->].
  cbn [start component mount segmentsStyle segmentsCounter]. rewrite Nat.add_0_l.
  assert (Hhole : forall j,
            foldl record_report [] (reports evs) !! j = Some None
            <-> (Z.of_nat j ∉ (fst <$> reports evs))
                /\ exists r, r ∈ reports evs /\ Z.of_nat j < fst r).
  { intros j. rewrite lookup_hole_iff, foldl_record_length_lt. split.
    - intros [[Hlt|(r & Hr & Hle)] Hnone]; [cbn in Hlt; lia|].
      assert (Hnot : Z.of_nat j ∉ (fst <$> reports evs)).
      { intros Hin. destruct (foldl_record_reported (reports evs) [] j Hin) as [g Hg].
        congruence. }
      split; [exact Hnot|]. exists r. split; [exact Hr|].
      destruct (decide (Z.of_nat j = fst r)) as [Heq|Hne]; [|lia].
      exfalso. apply Hnot. apply list_elem_of_fmap. exists r. split; assumption.
    - intros (Hnot & r & Hr & Hlt). split.
      + right. exists r. split; [exact Hr | lia].
      + rewrite foldl_record_unreported by exact Hnot. reflexivity. }
  split.
  - intros [Hgate [j Hj]]. split; [symmetry; exact Hgate|].
    exists j. apply Hhole, Hj.
  - intros [Hgate [j Hj]]. split; [symmetry; exact Hgate|].
    exists j. apply Hhole, Hj.
Qed.

Lemma style_throws_on_skipped_index_witness :
  getAnimatedStyle two_segments
    (component (exec (run two_segments
                        [Layout 1 (layout_event 52 60); Layout 1 (layout_event 52 60)])
                  (start two_segments)))
  = ThrowTypeError.
Proof.
  apply (proj2 (style_throws_on_skipped_index two_segments
                  [Layout 1 (layout_event 52 60); Layout 1 (layout_event 52 60)])).
  split; [reflexivity|]. exists 0%nat. split.
  - cbn. intros Hin. apply elem_of_cons in Hin as [Hin|Hin]; [discriminate|].
    apply list_elem_of_singleton in Hin. discriminate.
  - exists (1, layout_event 52 60). split; [apply list_elem_of_here | cbn; lia].
Defined.

Lemma getAnimatedStyle_ext props st1 st2 :
  segmentsCounter st1 = segmentsCounter st2 ->
  segmentsStyle st1 = segmentsStyle st2 ->
  getAnimatedStyle props st1 = getAnimatedStyle props st2.
Proof. intros Hc Hs. unfold getAnimatedStyle. rewrite Hc, Hs. reflexivity. Qed.

(** The derived style is a function of the layout reports alone: presses,
    wherever they fall in a trace, do not change what [getAnimatedStyle]
    returns. *)
Theorem style_ignores_presses props evs w :
  getAnimatedStyle props (component (exec (run props evs) w))
  = getAnimatedStyle props
      (component (exec (run props (layout_events (reports evs))) w)).
Proof.
  apply getAnimatedStyle_ext.
  - destruct (run_refs props evs w) as [_ ->].
    destruct (run_refs props (layout_events (reports evs)) w) as [_ ->].
    rewrite reports_layout_events. reflexivity.
  - destruct (run_refs props evs w) as [-> _].
    destruct (run_refs props (layout_events (reports evs)) w) as [-> _].
    rewrite reports_layout_events. reflexivity.
Qed.

(** From mount, the style is something other than [undefined] exactly after
    the traces that hold as many layout reports as there are segments:
    before the last of them it is not computed yet, and one report more
    makes it [undefined] again. *)
Theorem style_window props evs :
  getAnimatedStyle props (component (exec (run props evs) (start props)))
  <> Normal None
  <-> segments_length props = Some (length (reports evs)).
Proof.
  pose proof (getAnimatedStyle_undefined_iff props
                (component (exec (run props evs) (start props)))) as Hnone.
  destruct (run_refs props evs (start props)) as [_ Hcounter].
  cbn [start component mount segmentsCounter] in Hcounter.
  rewrite Nat.add_0_l in Hcounter. rewrite Hcounter in Hnone.
  rewrite Hnone. split.
  - intros Hnn.
    destruct (decide (segments_length props = Some (length (reports evs))))
      as [Heq|Hne]; [exact Heq|].
    exfalso. apply Hnn. congruence.
  - intros Heq Hne. apply Hne. symmetry. exact Heq.
Qed.

Lemma style_window_witness :
  getAnimatedStyle two_segments
    (component (exec (run two_segments (Press 1 :: segment0_twice))
                  (start two_segments)))
  <> Normal None.
Proof.
  apply (proj2 (style_window two_segments (Press 1 :: segment0_twice))).
  reflexivity.
Defined.

(** From mount, a trace of layout reports seeds the selection at its
    [count]-th report, whichever segments the reports come from: with fewer
    than [count] reports (or no segment at all) nothing has happened, and
    with [count] or more the selection is [initialIndex] and the state
    setter has been called exactly once. *)
Theorem seeding_at_count_th_report props count rs :
  segments_length props = Some count ->
  let w' := exec (run props (layout_events rs)) (start props) in
  if bool_decide (1 <= count <= length rs)%nat
  then selectedSegment (component w') = initialIndex props
       /\ effects w' = [SetSelectedSegment (initialIndex props)]
  else selectedSegment (component w') = -1 /\ effects w' = [].
Proof.
  intros Hcount. cbn zeta.
  destruct (run_layouts props rs (start props)) as (_ & Hsel & _ & Heff).
  unfold gate_crossed in Hsel, Heff. rewrite Hcount in Hsel, Heff.
  cbn [start component mount segmentsCounter effects] in Hsel, Heff.
  rewrite Nat.add_0_l in Hsel, Heff.
  assert (Hsame : bool_decide (0 < count <= length rs)%nat
                  = bool_decide (1 <= count <= length rs)%nat).
  { apply bool_decide_ext. lia. }
  rewrite Hsame in Hsel, Heff.
  destruct (bool_decide (1 <= count <= length rs)%nat); split; assumption.
Qed.

Lemma seeding_at_count_th_report_witness :
  selectedSegment
    (component (exec (run two_segments (layout_events [(0, layout_event 0 50);
                                                       (0, layout_event 0 50);
                                                       (0, layout_event 0 50)]))
                  (start two_segments))) = 0
  /\ effects (exec (run two_segments (layout_events [(0, layout_event 0 50);
                                                     (0, layout_event 0 50);
                                                     (0, layout_event 0 50)]))
                (start two_segments))
     = [SetSelectedSegment 0].
Proof.
  assert (Hcount : segments_length two_segments = Some 2%nat) by reflexivity.
  exact (seeding_at_count_th_report two_segments 2
           [(0, layout_event 0 50); (0, layout_event 0 50); (0, layout_event 0 50)]
           Hcount).
Defined.

Lemma onSegmentPress_selected props index w :
  selectedSegment (component (exec (onSegmentPress props index) w)) = index.
Proof.
  destruct (decide (selectedSegment (component w) = index)) as [Heq|Hne].
  - rewrite <- Heq at 1. rewrite onSegmentPress_same. exact Heq.
  - rewrite onSegmentPress_other by exact Hne. reflexivity.
Qed.

(** Pressing the same segment twice in a row is the same as pressing it
    once: the second press finds it selected and does nothing, so the
    callback and the animation are not repeated. *)
Theorem press_twice_is_press_once props index w :
  exec (onSegmentPress props index) (exec (onSegmentPress props index) w)
  = exec (onSegmentPress props index) w.
Proof.
  rewrite <- (onSegmentPress_selected props index w) at 1.
  apply onSegmentPress_same.
Qed.

Lemma seeding_over_miss props st :
  seeding_over props st ->
  bool_decide (Some (S (segmentsCounter st)) = segments_length props) = false.
Proof.
  unfold seeding_over. intros Hover. apply bool_decide_eq_false.
  destruct (segments_length props) as [count|]; [|discriminate].
  intros [= Heq]. lia.
Qed.

Lemma seeding_over_onLayout props index event w :
  seeding_over props (component w) ->
  seeding_over props (component (exec (onLayout props index event) w))
  /\ selectedSegment (component (exec (onLayout props index event) w))
     = selectedSegment (component w)
  /\ animatedValue (component (exec (onLayout props index event) w))
     = animatedValue (component w).
Proof.
  intros Hover. rewrite onLayout_exec. cbn zeta.
  rewrite (seeding_over_miss props _ Hover). cbn.
  repeat split. unfold seeding_over in *. cbn.
  destruct (segments_length props); [lia | exact I].
Qed.

Lemma seeding_over_onSegmentPress props index w :
  seeding_over props (component w) ->
  seeding_over props (component (exec (onSegmentPress props index) w)).
Proof.
  unfold seeding_over.
  destruct (onSegmentPress_refs props index w) as [_ ->]. intros H; exact H.
Qed.

Lemma run_highlight_follows_selection props evs : forall w,
  seeding_over props (component w) ->
  highlight_follows_selection (component w) ->
  highlight_follows_selection (component (exec (run props evs) w)).
Proof.
  induction evs as [|[index event|index] evs IH]; intros w Hover Hsync.
  - exact Hsync.
  - rewrite run_cons, handle_Layout.
    destruct (seeding_over_onLayout props index event w Hover) as (Hover' & Hsel & Hanim).
    apply IH; [exact Hover'|].
    unfold highlight_follows_selection. rewrite Hsel, Hanim. exact Hsync.
  - rewrite run_cons, handle_Press.
    apply IH; [apply seeding_over_onSegmentPress, Hover|].
    destruct (decide (selectedSegment (component w) = index)) as [Heq|Hne].
    + subst index. rewrite onSegmentPress_same. exact Hsync.
    + rewrite onSegmentPress_other by exact Hne. right. reflexivity.
Qed.

(** When no press comes before the layout report that seeds the selection
    (the trace starts with at least [count] layout reports, or [segments] is
    undefined), the highlight and the selection never part: in every later
    state either nothing is selected or the animated value is at, or heading
    to, the selected index. *)
Theorem highlight_follows_selection_after_seeding props rs later :
  match segments_length props with
  | Some count => (count <= length rs)%nat
  | None => True
  end ->
  highlight_follows_selection
    (component (exec (run props (layout_events rs ++ later)) (start props))).
Proof.
  intros Henough. rewrite run_app.
  destruct (run_layouts props rs (start props)) as (Hc & Hsel & Hanim & _).
  apply run_highlight_follows_selection.
  - unfold seeding_over. rewrite Hc.
    destruct (segments_length props); [cbn; lia | exact I].
  - unfold highlight_follows_selection. rewrite Hsel, Hanim.
    destruct (gate_crossed _ _ _); [right | left]; reflexivity.
Qed.

Lemma highlight_follows_selection_after_seeding_witness :
  highlight_follows_selection
    (component (exec (run three_segments
                        (layout_events three_reports
                         ++ [Press 2; Layout 1 (layout_event 52 60); Press 0]))
                  (start three_segments))).
Proof.
  apply (highlight_follows_selection_after_seeding three_segments three_reports
           [Press 2; Layout 1 (layout_event 52 60); Press 0]).
  cbn. lia.
Defined.

Lemma default_last_cons {A} (a x : A) (l : list A) :
  default a (last (x :: l)) = default x (last l).
Proof.
  rewrite last_cons. destruct (last l); reflexivity.
Qed.

(** Once no layout report can seed the selection any more, the last press
    wins: after any trace the selected segment is the one pressed last, or
    the one selected before when the trace has no press. *)
Theorem last_press_wins props evs : forall w,
  seeding_over props (component w) ->
  selectedSegment (component (exec (run props evs) w))
  = default (selectedSegment (component w)) (last (presses evs)).
Proof.
  induction evs as [|[index event|index] evs IH]; intros w Hover.
  - reflexivity.
  - rewrite run_cons, handle_Layout, presses_cons_Layout.
    destruct (seeding_over_onLayout props index event w Hover) as (Hover' & Hsel & _).
    rewrite (IH _ Hover'), Hsel. reflexivity.
  - rewrite run_cons, handle_Press, presses_cons_Press.
    rewrite (IH _ (seeding_over_onSegmentPress props index w Hover)).
    rewrite onSegmentPress_selected, default_last_cons. reflexivity.
Qed.

Lemma last_press_wins_witness :
  selectedSegment
    (component (exec (run three_segments
                        [Press 2; Layout 1 (layout_event 52 60); Press 0;
                         Layout 0 (layout_event 0 50)])
                  (exec (run three_segments (layout_events three_reports))
                     (start three_segments)))) = 0.
Proof.
  apply (last_press_wins three_segments
           [Press 2; Layout 1 (layout_event 52 60); Press 0;
            Layout 0 (layout_event 0 50)]
           (exec (run three_segments (layout_events three_reports))
              (start three_segments))).
  vm_compute. lia.
Defined.

(** ** What is rendered *)











(** ** Callback and animation against the presses *)

Lemma changing_presses_Layout props index event evs w :
  changing_presses props (Layout index event :: evs) w
  = changing_presses props evs (exec (onLayout props index event) w).
Proof. reflexivity. Qed.

Lemma changing_presses_Press props index evs w :
  changing_presses props (Press index :: evs) w
  = (if decide (selectedSegment (component w) <> index) then [index] else [])
    ++ changing_presses props evs (exec (onSegmentPress props index) w).
Proof. reflexivity. Qed.

Lemma changing_presses_sublist props evs : forall w,
  sublist (changing_presses props evs w) (presses evs).
Proof.
  induction evs as [|[index event|index] evs IH]; intros w.
  - constructor.
  - rewrite changing_presses_Layout, presses_cons_Layout. apply IH.
  - rewrite changing_presses_Press, presses_cons_Press.
    destruct (decide _); cbn [app]; [apply sublist_skip | apply sublist_cons]; apply IH.
Qed.

Lemma changing_presses_effects props evs : forall w,
  started_animations (effects (exec (run props evs) w))
  = started_animations (effects w)
    ++ (press_timing <$> changing_presses props evs w)
  /\ onChangeIndex_calls (effects (exec (run props evs) w))
     = onChangeIndex_calls (effects w)
       ++ match onChangeIndex props with
          | Some _ => changing_presses props evs w
          | None => []
          end.
Proof.
  induction evs as [|[index event|index] evs IH]; intros w.
  - change (exec (run props []) w) with w. cbn [changing_presses fmap list_fmap].
    destruct (onChangeIndex props); rewrite !app_nil_r; split; reflexivity.
  - rewrite run_cons, handle_Layout, changing_presses_Layout.
    destruct (IH (exec (onLayout props index event) w)) as [-> ->].
    rewrite onLayout_exec. cbn zeta. cbn [effects].
    unfold started_animations, onChangeIndex_calls. rewrite !omap_app.
    destruct (bool_decide _); cbn [omap]; rewrite !app_nil_r; split; reflexivity.
  - rewrite run_cons, handle_Press, changing_presses_Press.
    destruct (IH (exec (onSegmentPress props index) w)) as [-> ->].
    destruct (decide (selectedSegment (component w) <> index)) as [Hne|Heq].
    + rewrite onSegmentPress_other by exact Hne. cbn [effects].
      unfold started_animations, onChangeIndex_calls. rewrite !omap_app.
      destruct (onChangeIndex props); cbn [omap fmap list_fmap app];
        rewrite <- ?app_assoc; split; reflexivity.
    + assert (Hsame : selectedSegment (component w) = index).
      { destruct (decide (selectedSegment (component w) = index)); [assumption|].
        contradiction. }
      subst index. rewrite onSegmentPress_same. split; reflexivity.
Qed.

Lemma changing_presses_changes props evs : forall w,
  seeding_over props (component w) ->
  changing_presses props evs w
  = changes (selectedSegment (component w)) (presses evs).
Proof.
  induction evs as [|[index event|index] evs IH]; intros w Hover.
  - reflexivity.
  - rewrite changing_presses_Layout, presses_cons_Layout.
    destruct (seeding_over_onLayout props index event w Hover) as (Hover' & Hsel & _).
    rewrite (IH _ Hover'), Hsel. reflexivity.
  - rewrite changing_presses_Press, presses_cons_Press.
    rewrite (IH _ (seeding_over_onSegmentPress props index w Hover)).
    rewrite onSegmentPress_selected. cbn [changes].
    destruct (decide _); reflexivity.
Qed.

(** The host callback and the animation are driven by the presses that find
    another segment selected, and by nothing else.  Over any trace, from any
    world, exactly one timing animation toward each such press has been
    started, in order, and [onChangeIndex], when given, has been invoked
    exactly with them, in order; layout reports start no animation and
    invoke no callback.  Once no layout report can seed the selection any
    more, these presses are the pressed indices without those that repeat
    the index pressed just before (the current selection, for the first). *)
Theorem callback_and_animation_follow_presses props evs w :
  sublist (changing_presses props evs w) (presses evs)
  /\ started_animations (effects (exec (run props evs) w))
     = started_animations (effects w)
       ++ (press_timing <$> changing_presses props evs w)
  /\ onChangeIndex_calls (effects (exec (run props evs) w))
     = onChangeIndex_calls (effects w)
       ++ match onChangeIndex props with
          | Some _ => changing_presses props evs w
          | None => []
          end
  /\ (seeding_over props (component w) ->
      changing_presses props evs w
      = changes (selectedSegment (component w)) (presses evs)).
Proof.
  split; [apply changing_presses_sublist|].
  destruct (changing_presses_effects props evs w) as [Hanim Hcalls].
  split; [exact Hanim|]. split; [exact Hcalls|].
  apply changing_presses_changes.
Qed.

Lemma callback_and_animation_follow_presses_witness :
  onChangeIndex_calls
    (effects (exec (run three_segments
                      [Press 2; Press 2; Layout 0 (layout_event 0 50); Press 0; Press 2])
                (exec (run three_segments (layout_events three_reports))
                   (start three_segments))))
  = [2; 0; 2].
Proof.
  destruct (callback_and_animation_follow_presses three_segments
              [Press 2; Press 2; Layout 0 (layout_event 0 50); Press 0; Press 2]
              (exec (run three_segments (layout_events three_reports))
                 (start three_segments)))
    as (_ & _ & Hcalls & Hchanges).
  rewrite Hcalls, Hchanges; [reflexivity|].
  vm_compute. lia.
Defined.
